(** * phonemizer/punctuation.py : preserving, restoring and removing punctuation

    A shallow embedding of the [Punctuation] class of
    [src/phonemizer/punctuation.py] together with the part of Python's
    [str] and [re] libraries the class relies on, and the properties of
    [preserve], [restore] and [remove] proved over it. *)

From Stdlib Require Import String Ascii.
From Stdlib Require Import List NArith ZArith Bool Lia Permutation Sorted.
Import ListNotations.

Set Implicit Arguments.

(** ** Python strings

    A Python 3 [str] is a sequence of Unicode code points. *)

Definition char := N.
Definition str := list char.

(** ASCII literals of the development, as code point sequences. *)
Definition u (s : string) : str :=
  map N_of_ascii (list_ascii_of_string s).

Definition chr (s : string) : char :=
  match u s with c :: _ => c | [] => 0%N end.

(** [str.isspace] on one code point, which is also what [\s] matches in a
    [str] pattern (CPython's [Py_UNICODE_ISSPACE]). *)
Definition isspace (c : char) : bool :=
  ((9 <=? c) && (c <=? 13) || (28 <=? c) && (c <=? 32)
   || (c =? 133) || (c =? 160) || (c =? 5760)
   || (8192 <=? c) && (c <=? 8202)
   || (c =? 8232) || (c =? 8233) || (c =? 8239) || (c =? 8287)
   || (c =? 12288))%N.

Definition str_eqb (a b : str) : bool :=
  if list_eq_dec N.eq_dec a b then true else false.

(** [s.startswith(prefix)] *)
Fixpoint startswith (s prefix : str) : bool :=
  match prefix, s with
  | [], _ => true
  | p :: prefix', c :: s' => (c =? p)%N && startswith s' prefix'
  | _ :: _, [] => false
  end.

(** [s.endswith(suffix)] *)
Definition endswith (s suffix : str) : bool :=
  startswith (rev s) (rev suffix).

Fixpoint lstrip (s : str) : str :=
  match s with
  | c :: s' => if isspace c then lstrip s' else s
  | [] => []
  end.

Definition rstrip (s : str) : str := rev (lstrip (rev s)).

(** [s.strip()] *)
Definition strip (s : str) : str := rstrip (lstrip s).

(** ** Exceptions *)

Inductive exn := IndexError | ValueError.

Inductive result (A : Type) : Type :=
| Ok (a : A)
| Raise (e : exn).
Arguments Ok {A} a.
Arguments Raise {A} e.

Definition bind {A B} (c : result A) (k : A -> result B) : result B :=
  match c with
  | Ok a => k a
  | Raise e => Raise e
  end.

Declare Scope py_scope.
Delimit Scope py_scope with py.
Notation "x <- c ;; k" := (bind c (fun x => k))
  (at level 61, c at next level, right associativity) : py_scope.
Notation "' p <- c ;; k" := (bind c (fun x => match x with p => k end))
  (at level 61, p pattern, c at next level, right associativity) : py_scope.
Open Scope py_scope.

(** The first occurrence of [sep] in [s]: the text before it and the text
    after it. *)
Fixpoint str_partition (sep s : str) : option (str * str) :=
  if startswith s sep then Some ([], skipn (length sep) s)
  else match s with
       | [] => None
       | c :: s' =>
           match str_partition sep s' with
           | Some (a, b) => Some (c :: a, b)
           | None => None
           end
       end.

Fixpoint split_from (fuel : nat) (sep s : str) : list str :=
  match fuel with
  | 0 => [s]
  | S fuel' =>
      match str_partition sep s with
      | Some (a, b) => a :: split_from fuel' sep b
      | None => [s]
      end
  end.

(** [s.split(sep)]: [ValueError] on an empty separator, otherwise the pieces
    between the non-overlapping occurrences of [sep], left to right.  Each
    occurrence consumes at least one character, so [length s] rounds are
    enough. *)
Definition str_split (s sep : str) : result (list str) :=
  match sep with
  | [] => Raise ValueError
  | _ :: _ => Ok (split_from (length s) sep s)
  end.

(** [sep.join(l)] *)
Fixpoint str_join (sep : str) (l : list str) : str :=
  match l with
  | [] => []
  | [a] => a
  | a :: l' => a ++ sep ++ str_join sep l'
  end.

(** ** The regular expressions of the module

    [re.compile(fr'\s*[{marks}]+\s*')].  Character sets are kept as the
    parser builds them. *)

Inductive set_item :=
| Literal (c : char)
| Range (lo hi : char)
| Category_space.

Record charset := { negate : bool; items : list set_item }.

Definition in_item (c : char) (it : set_item) : bool :=
  match it with
  | Literal d => (c =? d)%N
  | Range lo hi => ((lo <=? c) && (c <=? hi))%N
  | Category_space => isspace c
  end.

Definition in_set (cs : charset) (c : char) : bool :=
  xorb (negate cs) (existsb (in_item c) (items cs)).

(** A compiled pattern of the shape [lead* body+ trail*]. *)
Record Pattern := { lead : charset; body : charset; trail : charset }.

Definition space_set : charset :=
  {| negate := false; items := [Category_space] |}.

(** *** Parsing

    The tokenizer of [sre_parse]: a backslash and the character after it
    are one token. *)
Inductive token := TChar (c : char) | TEsc (c : char).

Inductive parsed (A : Type) : Type :=
| Parsed (a : A)       (* compiled *)
| ReError              (* [re.error] raised by [re.compile] *)
| Unmodelled.          (* a pattern outside the shape modelled here *)
Arguments Parsed {A} a.
Arguments ReError {A}.
Arguments Unmodelled {A}.

Definition pbind {A B} (c : parsed A) (k : A -> parsed B) : parsed B :=
  match c with
  | Parsed a => k a
  | ReError => ReError
  | Unmodelled => Unmodelled
  end.

Fixpoint tokenize (s : str) : parsed (list token) :=
  match s with
  | [] => Parsed []
  | c :: s' =>
      if (c =? chr "\")%N then
        match s' with
        | [] => ReError                  (* bad escape (end of pattern) *)
        | d :: s'' => pbind (tokenize s'') (fun ts => Parsed (TEsc d :: ts))
        end
      else pbind (tokenize s') (fun ts => Parsed (TChar c :: ts))
  end.

Definition is_ascii_alnum (c : char) : bool :=
  ((48 <=? c) && (c <=? 57) || (65 <=? c) && (c <=? 90)
   || (97 <=? c) && (c <=? 122))%N.

(** [_class_escape]: [\s] is the whitespace category; a backslash before a
    character that is no ASCII letter or digit is that character.  The
    other escapes (categories, control characters, numeric escapes, bad
    escapes) are not modelled. *)
Definition class_escape (c : char) : parsed set_item :=
  if (c =? chr "s")%N then Parsed Category_space
  else if is_ascii_alnum c then Unmodelled
  else Parsed (Literal c).

Definition token_code (t : token) : parsed set_item :=
  match t with
  | TChar c => Parsed (Literal c)
  | TEsc c => class_escape c
  end.

Definition is_tchar (t : token) (s : string) : bool :=
  match t with
  | TChar c => (c =? chr s)%N
  | TEsc _ => false
  end.

(** The loop of [sre_parse._parse] over the members of a character set,
    after the opening bracket and the optional [^]; [nonempty] tells
    whether a member was already read (a closing bracket that comes first
    is a literal).  Returns the members and what follows the set. *)
Fixpoint parse_set_items (nonempty : bool) (ts : list token)
  : parsed (list set_item * list token) :=
  match ts with
  | [] => ReError                        (* unterminated character set *)
  | this :: ts1 =>
      if nonempty && is_tchar this "]" then Parsed ([], ts1)
      else
        pbind (token_code this) (fun code1 =>
        let single :=
          pbind (parse_set_items true ts1) (fun '(its, rest) =>
          Parsed (code1 :: its, rest)) in
        match ts1 with
        | dash :: ts2 =>
            if is_tchar dash "-" then
              match ts2 with
              | [] => ReError            (* unterminated character set *)
              | that :: ts3 =>
                  if is_tchar that "]"
                  then Parsed ([code1; Literal (chr "-")], ts3)
                  else
                    pbind (token_code that) (fun code2 =>
                    match code1, code2 with
                    | Literal lo, Literal hi =>
                        if (hi <? lo)%N then ReError  (* bad character range *)
                        else
                          pbind (parse_set_items true ts3) (fun '(its, rest) =>
                          Parsed (Range lo hi :: its, rest))
                    | _, _ => ReError                 (* bad character range *)
                    end)
              end
            else single
        | [] => single
        end)
  end.

Definition token_eqb (a b : token) : bool :=
  match a, b with
  | TChar c, TChar d => (c =? d)%N
  | TEsc c, TEsc d => (c =? d)%N
  | _, _ => false
  end.

Fixpoint tokens_eqb (a b : list token) : bool :=
  match a, b with
  | [], [] => true
  | x :: a', y :: b' => token_eqb x y && tokens_eqb a' b'
  | _, _ => false
  end.

(** [re.compile] on a source of the form [\s*[...]+\s*].

    The marks go into the source unescaped, so a source can have another
    form: a closing bracket that ends the set early, or a class escape
    such as [\d].  Python compiles such sources too; here they are
    [Unmodelled], and nothing is proved of their processors.  A source
    built from marks without backslash, closing bracket, caret and hyphen
    always has the form above ([marks_setter_plain]). *)
Definition re_compile (src : str) : parsed Pattern :=
  pbind (tokenize src) (fun ts =>
  match ts with
  | TEsc s :: TChar star :: TChar lb :: ts1 =>
      if ((s =? chr "s") && (star =? chr "*") && (lb =? chr "["))%N then
        let '(neg, ts2) :=
          match ts1 with
          | t :: r => if is_tchar t "^" then (true, r) else (false, ts1)
          | [] => (false, ts1)
          end in
        pbind (parse_set_items false ts2) (fun '(its, rest) =>
        if tokens_eqb rest [TChar (chr "+"); TEsc (chr "s"); TChar (chr "*")]
        then Parsed {| lead := space_set;
                       body := {| negate := neg; items := its |};
                       trail := space_set |}
        else Unmodelled)
      else Unmodelled
  | _ => Unmodelled
  end).

(** *** Matching

    Greedy repetition with backtracking: [star f k] takes one more
    character of [f] when it can and the rest then matches, and otherwise
    hands over to the continuation [k] where it stands.  The result is the
    number of characters matched. *)
Fixpoint star (f : char -> bool) (k : str -> option nat) (s : str)
  : option nat :=
  match s with
  | c :: s' =>
      if f c then
        match star f k s' with
        | Some n => Some (S n)
        | None => k s
        end
      else k s
  | [] => k s
  end.

Definition plus (f : char -> bool) (k : str -> option nat) (s : str)
  : option nat :=
  match s with
  | c :: s' => if f c then option_map S (star f k s') else None
  | [] => None
  end.

(** [pattern.match(s)]: the length of the match at the start of [s]. *)
Definition re_match (p : Pattern) (s : str) : option nat :=
  star (in_set (lead p))
    (plus (in_set (body p))
       (star (in_set (trail p)) (fun _ => Some 0))) s.

(** A match object: where it starts and [m.group()]. *)
Record Match := { m_start : nat; group : str }.

(** The scan shared by [finditer] and [sub]: try a match where we stand;
    after a match resume behind it, otherwise one character further.  A
    match holds at least one mark, so every round consumes a character. *)
Fixpoint finditer_from (fuel : nat) (p : Pattern) (pos : nat) (s : str)
  : list Match :=
  match fuel with
  | 0 => []
  | S fuel' =>
      match re_match p s with
      | Some n =>
          {| m_start := pos; group := firstn n s |}
            :: finditer_from fuel' p (pos + n) (skipn n s)
      | None =>
          match s with
          | [] => []
          | _ :: s' => finditer_from fuel' p (pos + 1) s'
          end
      end
  end.

(** [list(re.finditer(p, s))] *)
Definition finditer (p : Pattern) (s : str) : list Match :=
  finditer_from (S (length s)) p 0 s.

Fixpoint sub_from (fuel : nat) (p : Pattern) (repl s : str) : str :=
  match fuel with
  | 0 => s
  | S fuel' =>
      match re_match p s with
      | Some n => repl ++ sub_from fuel' p repl (skipn n s)
      | None =>
          match s with
          | [] => []
          | c :: s' => c :: sub_from fuel' p repl s'
          end
      end
  end.

(** [re.sub(p, repl, s)] *)
Definition re_sub (p : Pattern) (repl s : str) : str :=
  sub_from (S (length s)) p repl s.

(** ** The [Punctuation] class *)

(** [_DEFAULT_MARKS]: ; : , . ! ? and the inverted marks, the em dash, the
    ellipsis, the straight double quote, the guillemets and the curly
    double quotes. *)
Definition _DEFAULT_MARKS : str :=
  [59; 58; 44; 46; 33; 63; 161; 191; 8212; 8230; 34; 171; 187; 8220; 8221]%N.

(** The position of a mark in its line: ['B'], ['E'], ['A'] (alone) or
    ['I'].  [_restore_aux] takes whatever is none of the first three for
    ['I']. *)
Inductive position_tag := B | E | A | I.

(** The named tuple [_mark_index]. *)
Record _mark_index := { index : Z; mark : str; position : position_tag }.

(** An instance: the joined marks and the compiled pattern. *)
Record Punctuation := { _marks : str; _marks_re : Pattern }.

Definition default_marks : str := _DEFAULT_MARKS.

(** [''.join(set(value))]: the distinct characters of [value], in the
    iteration order of the set, which the language leaves open. *)
Definition join_set (value joined : str) : Prop :=
  Permutation joined (nodup N.eq_dec value).

(** The source of the pattern, [fr'\s*[{self._marks}]+\s*']. *)
Definition marks_re_source (marks : str) : str :=
  u "\s*[" ++ marks ++ u "]+\s*".

(** The body of the [marks] setter once the set is joined. *)
Definition marks_setter (joined : str) : parsed Punctuation :=
  pbind (re_compile (marks_re_source joined)) (fun re =>
  Parsed {| _marks := joined; _marks_re := re |}).

(** [Punctuation(marks=value)] returns [self]. *)
Definition Punctuation_init (value : str) (self : Punctuation) : Prop :=
  exists joined, join_set value joined /\ marks_setter joined = Parsed self.

(** The text arguments: one string or a list of strings. *)
Inductive text := Str (s : str) | Lines (l : list str).

(** Modelled from the spec: [str2list] of [phonemizer.utils], which is not
    among the sources.  A single line is treated as a one-element sequence
    and a sequence is taken as already split. *)
Definition str2list (t : text) : list str :=
  match t with
  | Str s => [s]
  | Lines l => l
  end.

Section Methods.
Variable self : Punctuation.

(** *** [remove] *)

Definition remove_aux (t : str) : str :=
  strip (re_sub (_marks_re self) (u " ") t).

Definition remove (t : text) : text :=
  match t with
  | Str s => Str (remove_aux s)
  | Lines l => Lines (map remove_aux l)
  end.

(** *** [preserve] *)

(** Match objects compare by identity; the matches of one scan start at
    different places. *)
Definition is_match (m : Match) (o : option Match) : bool :=
  match o with
  | Some m' => (m_start m =? m_start m')%nat && str_eqb (group m) (group m')
  | None => false
  end.

Definition last_error (l : list Match) : option Match := hd_error (rev l).

(** begin (B), end (E), in the middle (I) *)
Definition position_of (matches : list Match) (line : str) (m : Match)
  : position_tag :=
  if is_match m (hd_error matches) && startswith line (group m) then B
  else if is_match m (last_error matches) && endswith line (group m) then E
  else I.

(** The second loop of [_preserve_line]: the line is cut at the first
    occurrence of each mark in turn. *)
Fixpoint split_marks (marks : list _mark_index) (line : str)
  : result (list str) :=
  match marks with
  | [] => Ok [line]
  | m :: marks' =>
      split <- str_split line (mark m) ;;
      let prefix := hd [] split in
      let suffix := str_join (mark m) (tl split) in
      preserved_line <- split_marks marks' suffix ;;
      Ok (prefix :: preserved_line)
  end.

Definition _preserve_line (line : str) (n : Z)
  : result (list str * list _mark_index) :=
  let matches := finditer (_marks_re self) line in
  match matches with
  | [] => Ok ([line], [])
  | m0 :: others =>
      if (length matches =? 1)%nat && str_eqb (group m0) line
      then Ok ([], [{| index := n; mark := line; position := A |}])
      else
        let marks :=
          map (fun m => {| index := n; mark := group m;
                           position := position_of matches line m |})
              matches in
        preserved_line <- split_marks marks line ;;
        Ok (preserved_line, marks)
  end.

(** The loop of [preserve] from line number [n] on. *)
Fixpoint preserve_loop (n : Z) (lines : list str)
  : result (list str * list _mark_index) :=
  match lines with
  | [] => Ok ([], [])
  | line :: lines' =>
      '(chunks, marks) <- _preserve_line line n ;;
      '(preserved_text, preserved_marks) <- preserve_loop (n + 1) lines' ;;
      Ok (chunks ++ preserved_text, marks ++ preserved_marks)
  end.

Definition nonempty (s : str) : bool :=
  match s with [] => false | _ :: _ => true end.

Definition preserve (t : text) : result (list str * list _mark_index) :=
  '(preserved_text, preserved_marks) <- preserve_loop 0 (str2list t) ;;
  Ok (filter nonempty preserved_text, preserved_marks).

End Methods.

(** *** [restore]

    [text[0]] and [text[1]] raise [IndexError] when the list is too short;
    the slices [text[1:]] and [text[2:]] never fail.  The recursion is on
    the marks and, for a mark of a later line, on the text; the recursion
    limit of the interpreter is left out. *)
Fixpoint _restore_aux (marks : list _mark_index)
  : list str -> Z -> result (list str) :=
  match marks with
  | [] => fun text _ => Ok text
  | m :: marks' =>
      fix walk (text : list str) (n : Z) {struct text} : result (list str) :=
        if (index m =? n)%Z then
          match position m with
          | B =>
              match text with
              | [] => Raise IndexError
              | t0 :: rest => _restore_aux marks' ((mark m ++ t0) :: rest) n
              end
          | E =>
              match text with
              | [] => Raise IndexError
              | t0 :: rest =>
                  r <- _restore_aux marks' rest (n + 1)%Z ;;
                  Ok ((t0 ++ mark m) :: r)
              end
          | A =>
              r <- _restore_aux marks' text (n + 1)%Z ;;
              Ok (mark m :: r)
          | I =>
              match text with
              | t0 :: t1 :: rest =>
                  _restore_aux marks' ((t0 ++ mark m ++ t1) :: rest) n
              | _ => Raise IndexError
              end
          end
        else
          match text with
          | [] => Raise IndexError
          | t0 :: rest =>
              r <- walk rest (n + 1)%Z ;;
              Ok (t0 :: r)
          end
  end.

Definition restore (t : text) (marks : list _mark_index)
  : result (list str) :=
  _restore_aux marks (str2list t) 0.

(** * Vocabulary of the properties *)

(** The length of the longest prefix of [s] made of characters of [f]. *)
Fixpoint run (f : char -> bool) (s : str) : nat :=
  match s with
  | c :: s' => if f c then S (run f s') else 0
  | [] => 0
  end.

(** The pattern the setter compiles: whitespace, marks of [cls],
    whitespace. *)
Definition mark_pattern (cls : charset) : Pattern :=
  {| lead := space_set; body := cls; trail := space_set |}.

(** What is matched behind the leading whitespace. *)
Definition marks_then_space (cls : charset) (s : str) : option nat :=
  match s with
  | c :: s' =>
      if in_set cls c
      then Some (S (run (in_set cls) s'
                    + run isspace (skipn (run (in_set cls) s') s')))
      else None
  | [] => None
  end.

(** What a match is made of: whitespace and marks, at least one mark, and
    no whitespace follows it. *)
Record is_group (cls : charset) (g rest : str) : Prop := {
  group_chars : Forall (fun c => isspace c || in_set cls c = true) g;
  group_mark : exists c, In c g /\ in_set cls c = true;
  group_greedy : forall c x, rest = c :: x -> isspace c = false
}.

(** No character of the mark set. *)
Definition mark_free (cls : charset) (t : str) : Prop :=
  Forall (fun c => in_set cls c = false) t.

Definition no_space_end (t : str) : Prop :=
  forall x c, t = x ++ [c] -> isspace c = false.

Definition no_space_start (t : str) : Prop :=
  forall c x, t = c :: x -> isspace c = false.

(** A scan cuts a line into [t0 g1 t1 ... gk tk]: the [g] are the matches
    and the [t] the texts around them. *)
Inductive Scanned (cls : charset) : str -> str -> list (str * str) -> Prop :=
| Scanned_end t : mark_free cls t -> Scanned cls t t []
| Scanned_match t g rest t' gts :
    mark_free cls t -> no_space_end t -> is_group cls g rest ->
    Scanned cls rest t' gts ->
    Scanned cls (t ++ g ++ rest) t ((g, t') :: gts).

(** The match objects of a cut that starts at [pos]. *)
Fixpoint matches_of (pos : nat) (t0 : str) (gts : list (str * str))
  : list Match :=
  match gts with
  | [] => []
  | (g, t') :: gts' =>
      {| m_start := pos + length t0; group := g |}
        :: matches_of (pos + length t0 + length g) t' gts'
  end.

(** A scanned line is the concatenation of its pieces. *)
Fixpoint pieces (gts : list (str * str)) : str :=
  match gts with
  | [] => []
  | (g, t) :: gts' => g ++ t ++ pieces gts'
  end.

(** The marks after the first one: the last is at the end of the line when
    nothing follows it, all others are in the middle. *)
Fixpoint rest_marks (n : Z) (gts : list (str * str)) : list _mark_index :=
  match gts with
  | [] => []
  | (g, t) :: gts' =>
      {| index := n; mark := g;
         position := match gts', t with [], [] => E | _, _ => I end |}
        :: rest_marks n gts'
  end.

(** What [_preserve_line] returns on a line cut into [t0 g1 t1 ... gk tk]. *)
Definition line_result (n : Z) (t0 : str) (gts : list (str * str))
  : list str * list _mark_index :=
  match gts, t0 with
  | [], _ => ([t0], [])
  | [(g, [])], [] => ([], [{| index := n; mark := g; position := A |}])
  | (g, _) :: gts', [] =>
      (t0 :: map snd gts,
       {| index := n; mark := g; position := B |} :: rest_marks n gts')
  | _ :: _, _ :: _ => (t0 :: map snd gts, rest_marks n gts)
  end.

(** The marks of later lines. *)
Definition later (n : Z) (marks : list _mark_index) : Prop :=
  Forall (fun m => (n < index m)%Z) marks.

(** No two matches of the line are adjacent: between [g1 .. gk] the texts
    [t1 .. t(k-1)] are not empty. *)
Fixpoint inner_nonempty (gts : list (str * str)) : bool :=
  match gts with
  | [] => true
  | (_, t) :: gts' =>
      match gts' with
      | [] => true
      | _ :: _ => nonempty t && inner_nonempty gts'
      end
  end.

(** Consecutive matches are apart: some text lies between them. *)
Fixpoint separated (ms : list Match) : bool :=
  match ms with
  | [] => true
  | m1 :: ms' =>
      match ms' with
      | [] => true
      | m2 :: _ =>
          (m_start m1 + length (group m1) <? m_start m2)%nat && separated ms'
      end
  end.

(** The lines [restore] gives back as they were: not empty, and no two
    punctuation runs separated by nothing. *)
Definition restorable (self : Punctuation) (line : str) : bool :=
  nonempty line && separated (finditer (_marks_re self) line).

(** The set of an alphabet without metacharacters. *)
Definition literal_set (marks : str) : charset :=
  {| negate := false; items := map Literal marks |}.

(** [Punctuation()] *)
Definition default_punctuation : Punctuation :=
  {| _marks := _DEFAULT_MARKS;
     _marks_re := mark_pattern (literal_set _DEFAULT_MARKS) |}.

(** The calls of [_restore_aux], in order: the marks still pending, the
    chunks still to consume and the line counter of each. *)
Fixpoint restore_calls (marks : list _mark_index)
  : list str -> Z -> list (list _mark_index * list str * Z) :=
  match marks with
  | [] => fun text n => [([], text, n)]
  | m :: marks' =>
      fix walk (text : list str) (n : Z) {struct text} :=
        (m :: marks', text, n) ::
        if (index m =? n)%Z then
          match position m with
          | B =>
              match text with
              | [] => []
              | t0 :: rest => restore_calls marks' ((mark m ++ t0) :: rest) n
              end
          | E =>
              match text with
              | [] => []
              | t0 :: rest => restore_calls marks' rest (n + 1)%Z
              end
          | A => restore_calls marks' text (n + 1)%Z
          | I =>
              match text with
              | t0 :: t1 :: rest =>
                  restore_calls marks' ((t0 ++ mark m ++ t1) :: rest) n
              | _ => []
              end
          end
        else
          match text with
          | [] => []
          | t0 :: rest => walk rest (n + 1)%Z
          end
  end.

(** The characters that mean something inside a character set. *)
Definition plain_mark (c : char) : bool :=
  negb ((c =? chr "\") || (c =? chr "]") || (c =? chr "^") || (c =? chr "-"))%N.

Definition plain_alphabet (marks : str) : bool :=
  nonempty marks && forallb plain_mark marks.

(** The chunks of a line with its marks put back between them. *)
Fixpoint weave (chunks : list str) (marks : list _mark_index) : str :=
  match chunks, marks with
  | c :: chunks', m :: marks' => c ++ mark m ++ weave chunks' marks'
  | c :: _, [] => c
  | [], _ => []
  end.

(** A mark moved [k] lines down. *)
Definition shift_index (k : Z) (m : _mark_index) : _mark_index :=
  {| index := index m + k; mark := mark m; position := position m |}.

(** The marks tagged ['A'] and the marks tagged ['I']. *)
Definition is_alone (m : _mark_index) : bool :=
  match position m with A => true | _ => false end.

Definition is_inner (m : _mark_index) : bool :=
  match position m with I => true | _ => false end.

(** Marks in the order of their lines. *)
Definition in_line_order (marks : list _mark_index) : Prop :=
  StronglySorted (fun a b => (index a <= index b)%Z) marks.

(** The pieces of a scanned line with [repl] in the place of each match. *)
Definition replaced (repl t0 : str) (gts : list (str * str)) : str :=
  t0 ++ concat (map (fun gt => repl ++ snd gt) gts).

(** The processor the setter builds from an alphabet without
    metacharacters, joined in the order [joined]. *)
Definition plain_processor (joined : str) : Punctuation :=
  {| _marks := joined; _marks_re := mark_pattern (literal_set joined) |}.

(** No character of the configured alphabet. *)
Definition without_marks (value t : str) : Prop :=
  forall c, In c t -> ~ In c value.

(** What holds of the chunks [cs] that [preserve] keeps of one line: none
    is empty, none holds a mark, only the first may start with whitespace,
    and then the line starts with it, only the last may end with
    whitespace, and then the line ends with it. *)
Definition line_chunks (value line : str) (cs : list str) : Prop :=
  Forall (fun c => c <> [] /\ without_marks value c) cs
  /\ forall before c after,
       cs = before ++ c :: after ->
       (lstrip c = c \/ (before = [] /\ startswith line c = true))
       /\ (rstrip c = c \/ (after = [] /\ endswith line c = true)).

(** * Properties *)

(** ** Strings *)

Lemma startswith_nil_r (s : str) : startswith s [] = true.
Proof. now destruct s. Qed.

Lemma startswith_app (g rest : str) : startswith (g ++ rest) g = true.
Proof.
  induction g as [|c g IH]; simpl; [apply startswith_nil_r|].
  now rewrite N.eqb_refl, IH.
Qed.

(** A prefix of [a ++ b] lies within [a] or covers it. *)
Lemma startswith_app_cases (g a b : str) :
  startswith (a ++ b) g = true ->
  (exists a', a = g ++ a') \/ (exists g', g = a ++ g').
Proof.
  revert a; induction g as [|c g IH]; intros a H.
  - left; now exists a.
  - destruct a as [|d a].
    + right; now exists (c :: g).
    + simpl in H. apply andb_true_iff in H as [Hc H].
      apply N.eqb_eq in Hc; subst d.
      destruct (IH _ H) as [[a' ->]|[g' ->]].
      * left; now exists a'.
      * right; now exists g'.
Qed.

Lemma str_eqb_eq (a b : str) : str_eqb a b = true <-> a = b.
Proof.
  unfold str_eqb; destruct (list_eq_dec N.eq_dec a b); split;
    intros; congruence.
Qed.

Lemma str_eqb_refl (a : str) : str_eqb a a = true.
Proof. now apply str_eqb_eq. Qed.

Lemma str_partition_app (sep s a b : str) :
  str_partition sep s = Some (a, b) -> s = a ++ sep ++ b.
Proof.
  revert a b; induction s as [|c s IH]; intros a b H.
  - destruct sep; simpl in H; [|discriminate].
    now injection H as <- <-.
  - cbn [str_partition] in H.
    destruct (startswith (c :: s) sep) eqn:Hp.
    + injection H as <- <-. simpl.
      clear IH. revert Hp. generalize (c :: s) as l.
      induction sep as [|x sep IHs]; intros l Hp; [reflexivity|].
      destruct l as [|y l]; [discriminate|]. simpl in Hp.
      apply andb_true_iff in Hp as [Hx Hp]. apply N.eqb_eq in Hx; subst.
      simpl. f_equal. now apply IHs.
    + destruct (str_partition sep s) as [[a' b']|] eqn:Hs; [|discriminate].
      injection H as <- <-. simpl. f_equal. now apply IH.
Qed.

Lemma str_partition_unfold (sep s : str) :
  str_partition sep s
  = if startswith s sep then Some ([], skipn (length sep) s)
    else match s with
         | [] => None
         | c :: s' =>
             match str_partition sep s' with
             | Some (a, b) => Some (c :: a, b)
             | None => None
             end
         end.
Proof. destruct s; reflexivity. Qed.

Lemma str_join_split_from (fuel : nat) (sep s : str) :
  str_join sep (split_from fuel sep s) = s.
Proof.
  revert s; induction fuel as [|fuel IH]; intros s; [reflexivity|].
  simpl. destruct (str_partition sep s) as [[a b]|] eqn:Hs; [|reflexivity].
  apply str_partition_app in Hs. specialize (IH b).
  destruct (split_from fuel sep b) eqn:Hb.
  - exfalso. destruct fuel; simpl in Hb; [discriminate|].
    destruct (str_partition sep b) as [[? ?]|]; discriminate.
  - cbn [str_join]. cbn [str_join] in IH. now rewrite IH.
Qed.

Lemma lstrip_fixed (s : str) :
  (forall c x, s = c :: x -> isspace c = false) -> lstrip s = s.
Proof.
  destruct s as [|c s]; intros H; [reflexivity|].
  simpl. now rewrite (H c s eq_refl).
Qed.

Lemma lstrip_head (s : str) c x : lstrip s = c :: x -> isspace c = false.
Proof.
  induction s as [|d s IH]; simpl; [discriminate|].
  destruct (isspace d) eqn:Hd; [exact IH|].
  intros H; injection H as <- <-; exact Hd.
Qed.

Lemma lstrip_suffix (s : str) : exists w, s = w ++ lstrip s.
Proof.
  induction s as [|d s [w IH]]; [now exists []|].
  simpl. destruct (isspace d).
  - exists (d :: w). simpl. now f_equal.
  - now exists [].
Qed.

Lemma lstrip_idem (s : str) : lstrip (lstrip s) = lstrip s.
Proof. apply lstrip_fixed. intros c x; apply lstrip_head. Qed.

Lemma rstrip_fixed (s : str) :
  (forall x c, s = x ++ [c] -> isspace c = false) -> rstrip s = s.
Proof.
  intros H. unfold rstrip. rewrite lstrip_fixed; [apply rev_involutive|].
  intros c x Hr. apply (H (rev x) c).
  rewrite <- (rev_involutive s), Hr. reflexivity.
Qed.

Lemma strip_idem (s : str) : strip (strip s) = strip s.
Proof.
  unfold strip.
  assert (Hl : lstrip (rstrip (lstrip s)) = rstrip (lstrip s)).
  { apply lstrip_fixed. intros c x Hr.
    unfold rstrip in Hr.
    destruct (lstrip_suffix (rev (lstrip s))) as [w Hw].
    assert (Hs : lstrip s = rev (lstrip (rev (lstrip s))) ++ rev w).
    { rewrite <- rev_app_distr, <- Hw. now rewrite rev_involutive. }
    rewrite Hr in Hs. simpl in Hs. now apply lstrip_head in Hs. }
  rewrite Hl. unfold rstrip at 1. unfold rstrip.
  rewrite rev_involutive, lstrip_idem. reflexivity.
Qed.

Lemma strip_forall (P : char -> Prop) (s : str) :
  Forall P s -> Forall P (strip s).
Proof.
  assert (L : forall x, Forall P x -> Forall P (lstrip x)).
  { intros x Hx. destruct (lstrip_suffix x) as [w Hw].
    rewrite Hw in Hx. now apply Forall_app in Hx. }
  intros H. unfold strip, rstrip.
  apply Forall_rev, L, Forall_rev, L, H.
Qed.

(** ** Matching the mark pattern *)

Lemma run_firstn f s : Forall (fun c => f c = true) (firstn (run f s) s).
Proof.
  induction s as [|c s IH]; simpl; [constructor|].
  destruct (f c) eqn:Hc; simpl; [now constructor|constructor].
Qed.

Lemma run_skipn f s c x : skipn (run f s) s = c :: x -> f c = false.
Proof.
  induction s as [|d s IH]; simpl; [discriminate|].
  destruct (f d) eqn:Hd; simpl; [exact IH|].
  intros H; injection H as <- <-; exact Hd.
Qed.

Lemma star_const f s : star f (fun _ => Some 0) s = Some (run f s).
Proof.
  induction s as [|c s IH]; simpl; [reflexivity|].
  destruct (f c); [now rewrite IH|reflexivity].
Qed.

Lemma star_star f g s :
  star f (star g (fun _ => Some 0)) s
  = Some (run f s + run g (skipn (run f s) s)).
Proof.
  induction s as [|c s IH]; [reflexivity|].
  cbn [star run]. destruct (f c) eqn:Hc.
  - rewrite IH. reflexivity.
  - exact (star_const g (c :: s)).
Qed.

Lemma star_ext f f' k k' s :
  (forall c, f c = f' c) -> (forall x, k x = k' x) ->
  star f k s = star f' k' s.
Proof.
  intros Hf Hk. induction s as [|c s IH]; simpl; [apply Hk|].
  rewrite <- Hf, IH, Hk. reflexivity.
Qed.

Lemma in_space_set c : in_set space_set c = isspace c.
Proof. unfold in_set; simpl. now rewrite orb_false_r. Qed.

Section Matching.
Variable cls : charset.

Local Abbreviation C := (in_set cls).
Local Abbreviation W := isspace.
Local Abbreviation p := (mark_pattern cls).

Lemma re_match_unfold s :
  re_match p s = star W (marks_then_space cls) s.
Proof.
  unfold re_match; simpl. apply star_ext; [apply in_space_set|].
  intros [|c x]; simpl; [reflexivity|].
  destruct (C c); [|reflexivity].
  rewrite (star_ext (in_set cls) (in_set cls) _
             (star W (fun _ => Some 0)) x (fun _ => eq_refl)).
  - rewrite star_star. reflexivity.
  - intros y. apply star_ext; [apply in_space_set|reflexivity].
Qed.

Lemma is_group_nonempty g rest : is_group cls g rest -> g <> [].
Proof. intros [_ [c [Hc _]] _] ->. exact Hc. Qed.

Lemma marks_then_space_some s n :
  marks_then_space cls s = Some n ->
  exists g rest, s = g ++ rest /\ length g = n /\ is_group cls g rest.
Proof.
  destruct s as [|c s]; simpl; [discriminate|].
  destruct (C c) eqn:Hc; [|discriminate].
  intros H; injection H as <-.
  set (a := run C s). set (b := run W (skipn a s)).
  exists (c :: firstn a s ++ firstn b (skipn a s)), (skipn b (skipn a s)).
  assert (Ha : length (firstn a s) = a).
  { apply firstn_length_le. clear. subst a.
    induction s as [|d s IH]; simpl; [lia|]. destruct (C d); simpl; lia. }
  assert (Hb : length (firstn b (skipn a s)) = b).
  { apply firstn_length_le. subst b. generalize (skipn a s). clear.
    induction l as [|d s IH]; simpl; [lia|]. destruct (W d); simpl; lia. }
  split; [|split; [|split]].
  - simpl. f_equal. rewrite <- app_assoc, firstn_skipn, firstn_skipn.
    reflexivity.
  - simpl. rewrite length_app, Ha, Hb. reflexivity.
  - constructor; [now rewrite Hc, orb_true_r|].
    apply Forall_app; split.
    + eapply Forall_impl; [|apply run_firstn].
      intros x Hx; simpl in Hx. now rewrite Hx, orb_true_r.
    + eapply Forall_impl; [|apply run_firstn].
      intros x Hx; simpl in Hx. now rewrite Hx.
  - exists c; split; [now left|exact Hc].
  - intros d x. apply run_skipn.
Qed.

Lemma re_match_some s n :
  re_match p s = Some n ->
  exists g rest, s = g ++ rest /\ length g = n /\ is_group cls g rest.
Proof.
  rewrite re_match_unfold. revert n.
  induction s as [|c s IH]; intros n; simpl; [discriminate|].
  assert (K : marks_then_space cls (c :: s) = Some n ->
              exists g rest, c :: s = g ++ rest /\ length g = n
                             /\ is_group cls g rest)
    by apply marks_then_space_some.
  destruct (W c) eqn:Hc; [|exact K].
  destruct (star W (marks_then_space cls) s) as [m|] eqn:Hs; [|exact K].
  intros H; injection H as <-.
  destruct (IH m eq_refl) as (g & rest & -> & <- & [G1 [d [G2 G3]] G4]).
  exists (c :: g), rest. split; [reflexivity|]. split; [reflexivity|].
  constructor.
  - constructor; [now rewrite Hc|exact G1].
  - exists d; split; [now right|exact G3].
  - exact G4.
Qed.

(** No match starts on a mark-free position only. *)
Lemma re_match_none_mark c s : re_match p (c :: s) = None -> C c = false.
Proof.
  rewrite re_match_unfold. simpl.
  destruct (C c); [|reflexivity].
  destruct (W c); [|discriminate].
  destruct (star W (marks_then_space cls) s); discriminate.
Qed.

(** A failed attempt before a match does not stand on whitespace: the
    leading [\s*] would have taken it. *)
Lemma re_match_none_space c s n :
  re_match p (c :: s) = None -> re_match p s = Some n -> W c = false.
Proof.
  rewrite !re_match_unfold. simpl.
  destruct (W c); [|reflexivity].
  intros H Hs. rewrite Hs in H. discriminate.
Qed.

Lemma re_match_mark_free s :
  Forall (fun c => C c = false) s -> re_match p s = None.
Proof.
  intros H. destruct (re_match p s) as [n|] eqn:Hm; [|reflexivity].
  apply re_match_some in Hm as (g & rest & -> & _ & [_ [c [Hc Hc']] _]).
  apply Forall_app in H as [H _].
  rewrite Forall_forall in H. rewrite (H c Hc) in Hc'. discriminate.
Qed.

End Matching.

Lemma firstn_length_app (A : Type) (g r : list A) :
  firstn (length g) (g ++ r) = g.
Proof. induction g; simpl; [reflexivity|now f_equal]. Qed.

Lemma skipn_length_app (A : Type) (g r : list A) :
  skipn (length g) (g ++ r) = r.
Proof. induction g; simpl; [reflexivity|assumption]. Qed.

(** ** The shape of a scanned line *)
Section Scan.
Variable cls : charset.

Local Abbreviation C := (in_set cls).
Local Abbreviation W := isspace.
Local Abbreviation p := (mark_pattern cls).

Lemma matches_of_cons pos c t0 gts :
  matches_of pos (c :: t0) gts = matches_of (pos + 1) t0 gts.
Proof.
  destruct gts as [|[g t'] gts]; simpl; [reflexivity|].
  replace (pos + S (length t0)) with (pos + 1 + length t0) by lia.
  reflexivity.
Qed.

Lemma no_space_end_nil : no_space_end [].
Proof. intros [|a x] d H; discriminate. Qed.

Lemma no_space_end_cons c t :
  t <> [] -> no_space_end t -> no_space_end (c :: t).
Proof.
  intros Ht H [|d x] e Hx; simpl in Hx; injection Hx as H1 H2; subst.
  - congruence.
  - now apply (H x e).
Qed.

Lemma finditer_from_scanned fuel : forall s pos,
  length s < fuel ->
  exists t0 gts,
    Scanned cls s t0 gts
    /\ finditer_from fuel p pos s = matches_of pos t0 gts
    /\ (t0 = [] -> gts <> [] -> re_match p s <> None).
Proof.
  induction fuel as [|fuel IH]; intros s pos Hlen; [lia|].
  cbn [finditer_from]. destruct (re_match p s) as [n|] eqn:Hm.
  - destruct (re_match_some _ _ Hm) as (g & rest & -> & <- & G).
    assert (Hg : g <> []) by exact (is_group_nonempty G).
    rewrite firstn_length_app, skipn_length_app.
    destruct (IH rest (pos + length g)) as (t' & gts & Sc & Hf & _).
    { rewrite length_app in Hlen. destruct g; [congruence|simpl in *; lia]. }
    exists [], ((g, t') :: gts). split; [|split].
    + apply (Scanned_match (t := [])); auto using no_space_end_nil.
      constructor.
    + simpl. rewrite Nat.add_0_r, Hf. reflexivity.
    + intros _ _. congruence.
  - destruct s as [|c s].
    + exists [], []. split; [constructor; constructor|].
      split; [reflexivity|congruence].
    + destruct (IH s (pos + 1)) as (t0 & gts & Sc & Hf & Hne);
        [simpl in Hlen; lia|].
      exists (c :: t0), gts. split; [|split].
      * pose proof (re_match_none_mark _ _ _ Hm) as Hc.
        destruct Sc as [t Ht|t g rest t' gts Ht He G Sc].
        -- constructor. now constructor.
        -- apply (Scanned_match (t := c :: t)); auto.
           ++ now constructor.
           ++ destruct t as [|d t].
              ** intros [|a [|b y]] e Hx; try discriminate.
                 injection Hx as <-.
                 destruct (re_match p (g ++ rest)) as [n|] eqn:Hn.
                 --- exact (re_match_none_space _ _ _ Hm Hn).
                 --- exfalso. now apply Hne.
              ** apply no_space_end_cons; [discriminate|exact He].
      * rewrite matches_of_cons. exact Hf.
      * discriminate.
Qed.

Lemma finditer_scanned s :
  exists t0 gts,
    Scanned cls s t0 gts /\ finditer p s = matches_of 0 t0 gts.
Proof.
  destruct (@finditer_from_scanned (S (length s)) s 0) as (t0 & gts & H & H' & _);
    [lia|].
  now exists t0, gts.
Qed.

Lemma Scanned_line s t0 gts : Scanned cls s t0 gts -> s = t0 ++ pieces gts.
Proof.
  induction 1 as [t _|t g rest t' gts _ _ _ _ IH]; simpl.
  - now rewrite app_nil_r.
  - now rewrite IH.
Qed.

End Scan.

(** ** One line through [_preserve_line] *)

Lemma last_error_cons (m : Match) l :
  l <> [] -> last_error (m :: l) = last_error l.
Proof.
  unfold last_error. simpl. intros Hl.
  destruct (rev l) eqn:Hr; [|reflexivity].
  apply (f_equal (@rev _)) in Hr. rewrite rev_involutive in Hr. contradiction.
Qed.

Lemma last_error_in (m : Match) l : last_error l = Some m -> In m l.
Proof.
  unfold last_error. intros H. apply in_rev.
  destruct (rev l); [discriminate|]. injection H as ->. now left.
Qed.

Lemma endswith_app (pre g : str) : endswith (pre ++ g) g = true.
Proof. unfold endswith. rewrite rev_app_distr. apply startswith_app. Qed.

Section PreserveLine.
Variable self : Punctuation.
Variable cls : charset.
Hypothesis Hre : _marks_re self = mark_pattern cls.

Local Abbreviation C := (in_set cls).
Local Abbreviation W := isspace.

Lemma partition_scanned t g rest :
  mark_free cls t -> no_space_end t -> is_group cls g rest ->
  str_partition g (t ++ g ++ rest) = Some (t, rest).
Proof.
  intros Ht He G. induction t as [|c t IH].
  - change ([] ++ g ++ rest) with (g ++ rest).
    rewrite str_partition_unfold, startswith_app, skipn_length_app.
    reflexivity.
  - assert (Hs : startswith ((c :: t) ++ g ++ rest) g = false).
    { destruct (startswith _ g) eqn:Hs; [exfalso|reflexivity].
      destruct G as [G1 [d [Hd Hd']] _].
      apply startswith_app_cases in Hs as [[a' Ha]|[g' Hg]].
      - rewrite Ha in Ht. apply Forall_app in Ht as [Ht _].
        rewrite Forall_forall in Ht. rewrite (Ht d Hd) in Hd'. discriminate.
      - destruct (exists_last (l := c :: t)) as (x & e & Hx); [discriminate|].
        rewrite Hx in *. specialize (He x e eq_refl).
        apply Forall_app in Ht as [_ Ht]. inversion Ht as [|? ? Hc _]; subst.
        rewrite Forall_forall in G1.
        assert (Hin : In e ((x ++ [e]) ++ g')).
        { apply in_or_app; left. apply in_or_app; right; now left. }
        specialize (G1 e Hin). rewrite He, Hc in G1. discriminate. }
    rewrite str_partition_unfold, Hs. simpl.
    inversion Ht; subst.
    rewrite IH; auto.
    intros x e Hx. apply (He (c :: x) e). simpl. now f_equal.
Qed.

Lemma not_startswith t g rest y :
  t <> [] -> mark_free cls t -> no_space_end t -> is_group cls g rest ->
  startswith (t ++ g ++ y) g = false.
Proof.
  intros Hne Ht He G.
  destruct (startswith _ g) eqn:Hs; [exfalso|reflexivity].
  destruct G as [G1 [d [Hd Hd']] _].
  apply startswith_app_cases in Hs as [[a' Ha]|[g' Hg]].
  - rewrite Ha in Ht. apply Forall_app in Ht as [Ht _].
    rewrite Forall_forall in Ht. rewrite (Ht d Hd) in Hd'. discriminate.
  - destruct (exists_last Hne) as (x & e & Hx).
    rewrite Hx in *. specialize (He x e eq_refl).
    apply Forall_app in Ht as [_ Ht]. inversion Ht as [|? ? Hc _]; subst.
    rewrite Forall_forall in G1.
    assert (Hin : In e ((x ++ [e]) ++ g')).
    { apply in_or_app; left. apply in_or_app; right; now left. }
    specialize (G1 e Hin). rewrite He, Hc in G1. discriminate.
Qed.

Lemma not_endswith pre g rest t :
  t <> [] -> mark_free cls t -> no_space_start t -> is_group cls g rest ->
  endswith (pre ++ t) g = false.
Proof.
  intros Hne Ht Hs G. unfold endswith. rewrite rev_app_distr.
  destruct (startswith _ (rev g)) eqn:Hp; [exfalso|reflexivity].
  destruct G as [G1 [d [Hd Hd']] _].
  unfold mark_free in Ht. rewrite Forall_forall in Ht, G1.
  apply startswith_app_cases in Hp as [[a' Ha]|[g' Hg]].
  - assert (Hin : In d t).
    { apply in_rev. rewrite Ha. apply in_or_app; left. now apply in_rev in Hd. }
    rewrite (Ht d Hin) in Hd'. discriminate.
  - destruct t as [|e x]; [congruence|].
    assert (Hin : In e g).
    { apply in_rev. rewrite Hg. apply in_or_app; left.
      apply in_rev. rewrite rev_involutive. now left. }
    specialize (G1 e Hin). rewrite (Hs e x eq_refl) in G1.
    rewrite (Ht e (or_introl eq_refl)) in G1. discriminate.
Qed.

Lemma split_marks_scanned s t gts :
  Scanned cls s t gts ->
  forall ms, map mark ms = map fst gts ->
  split_marks ms s = Ok (t :: map snd gts).
Proof.
  induction 1 as [t _|t g rest t' gts Ht He G Sc IH]; intros ms Hms.
  - destruct ms; [reflexivity|discriminate].
  - destruct ms as [|m ms]; [discriminate|].
    simpl in Hms. injection Hms as Hm Hms.
    cbn [split_marks]. rewrite Hm.
    pose proof (is_group_nonempty G) as Hg.
    unfold str_split. destruct g as [|x g]; [congruence|].
    destruct (length (t ++ (x :: g) ++ rest)) as [|f] eqn:Hl.
    { rewrite !length_app in Hl. simpl in Hl. lia. }
    cbn [split_from bind]. rewrite (partition_scanned Ht He G).
    cbn [hd tl]. rewrite str_join_split_from, (IH ms Hms). reflexivity.
Qed.

End PreserveLine.

Lemma matches_of_start_ge gts : forall pos t m,
  In m (matches_of pos t gts) -> pos + length t <= m_start m.
Proof.
  induction gts as [|[g t'] gts IH]; intros pos t m; simpl; [tauto|].
  intros [<-|H]; [simpl; lia|]. apply IH in H. lia.
Qed.

Lemma matches_of_step pos t g t' gts :
  matches_of pos t ((g, t') :: gts)
  = {| m_start := pos + length t; group := g |}
      :: matches_of (pos + length t + length g) t' gts.
Proof. reflexivity. Qed.

Lemma matches_of_nonempty pos t gts :
  gts <> [] -> matches_of pos t gts <> [].
Proof. destruct gts as [|[g t'] gts]; simpl; congruence. Qed.

Lemma is_match_refl m : is_match m (Some m) = true.
Proof. unfold is_match. now rewrite Nat.eqb_refl, str_eqb_refl. Qed.

Lemma is_match_later m o :
  (forall m', o = Some m' -> m_start m < m_start m') ->
  is_match m o = false.
Proof.
  destruct o as [m'|]; [|reflexivity]. intros H. unfold is_match.
  specialize (H m' eq_refl).
  destruct (Nat.eqb_spec (m_start m) (m_start m')); [lia|reflexivity].
Qed.

Lemma is_match_earlier m o :
  (forall m', o = Some m' -> m_start m' < m_start m) ->
  is_match m o = false.
Proof.
  destruct o as [m'|]; [|reflexivity]. intros H. unfold is_match.
  specialize (H m' eq_refl).
  destruct (Nat.eqb_spec (m_start m) (m_start m')); [lia|reflexivity].
Qed.

Section Positions.
Variable cls : charset.
Variable n : Z.
Variable matches : list Match.
Variable line : str.

Local Abbreviation mark_at :=
  (fun m => {| index := n; mark := group m;
               position := position_of matches line m |}).

Lemma positions_rest s t gts :
  Scanned cls s t gts ->
  forall pos pre,
    line = pre ++ s ->
    (forall m, In m (matches_of pos t gts) ->
               is_match m (hd_error matches)
               && startswith line (group m) = false) ->
    gts <> [] ->
    last_error matches = last_error (matches_of pos t gts) ->
    map mark_at (matches_of pos t gts) = rest_marks n gts.
Proof.
  induction 1 as [t _|t g rest t' gts Ht He G Sc IH];
    intros pos pre Hline Hfirst Hne Hlast; [congruence|].
  pose proof (is_group_nonempty G) as Hg.
  assert (Hlen : 1 <= length g) by (destruct g; [congruence|simpl; lia]).
  rewrite matches_of_step. cbn [map rest_marks]. f_equal.
  - f_equal. unfold position_of.
    rewrite (Hfirst _ (or_introl eq_refl)). cbn [group].
    destruct gts as [|gt gts0].
    + inversion Sc; subst. rewrite matches_of_step in Hlast.
      cbn [matches_of] in Hlast. rewrite Hlast. unfold last_error; cbn [rev app hd_error].
      rewrite is_match_refl. cbn [andb].
      destruct t' as [|e x].
      * rewrite app_nil_r, !app_assoc, endswith_app. reflexivity.
      * replace (pre ++ t ++ g ++ e :: x) with ((pre ++ t ++ g) ++ e :: x)
          by now rewrite <- !app_assoc.
        rewrite (@not_endswith cls (pre ++ t ++ g) g (e :: x) (e :: x));
          [reflexivity|discriminate|assumption|exact (group_greedy G)|exact G].
    + rewrite is_match_later.
      * cbn [andb]. now destruct t'.
      * intros ml Hml. rewrite Hlast, matches_of_step in Hml.
        rewrite last_error_cons in Hml
          by (apply matches_of_nonempty; discriminate).
        apply last_error_in, matches_of_start_ge in Hml.
        cbn [m_start]. lia.
  - destruct gts as [|gt gts0]; [reflexivity|].
    apply (IH (pos + length t + length g) (pre ++ t ++ g)).
    + rewrite Hline, <- !app_assoc. reflexivity.
    + intros m Hm. apply Hfirst. now right.
    + discriminate.
    + rewrite Hlast, matches_of_step. apply last_error_cons.
      apply matches_of_nonempty. discriminate.
Qed.

End Positions.

Lemma map_group_matches_of gts : forall pos t,
  map group (matches_of pos t gts) = map fst gts.
Proof.
  induction gts as [|[g t'] gts IH]; intros pos t; simpl; [reflexivity|].
  now rewrite IH.
Qed.

Lemma str_eqb_longer (g a b : str) :
  a ++ b <> [] -> str_eqb g (a ++ g ++ b) = false.
Proof.
  intros H. destruct (str_eqb g (a ++ g ++ b)) eqn:He; [exfalso|reflexivity].
  apply str_eqb_eq, (f_equal (@length _)) in He.
  rewrite !length_app in He.
  destruct a, b; simpl in *; try congruence; lia.
Qed.

Section PreserveLineResult.
Variable self : Punctuation.
Variable cls : charset.
Hypothesis Hre : _marks_re self = mark_pattern cls.

Lemma preserve_line_scanned line t0 gts n :
  Scanned cls line t0 gts ->
  finditer (_marks_re self) line = matches_of 0 t0 gts ->
  _preserve_line self line n = Ok (line_result n t0 gts).
Proof.
  intros Sc Hfind. unfold _preserve_line. rewrite Hfind.
  destruct gts as [|[g t'] gts'].
  { inversion Sc; subst. reflexivity. }
  pose proof Sc as Sc0.
  inversion Sc as [|t g0 rest t0' gts0 Ht He G Sc' E1 E2 E3]; subst.
  pose proof (is_group_nonempty G) as Hg.
  assert (Hlen : 1 <= length g) by (destruct g; [congruence|simpl; lia]).
  rewrite matches_of_step. cbn [group length].
  set (m0 := {| m_start := 0 + length t0; group := g |}).
  set (others := matches_of (0 + length t0 + length g) t' gts').
  assert (Hmarks : map mark
            (map (fun m => {| index := n; mark := group m;
                              position := position_of (m0 :: others)
                                            (t0 ++ g ++ rest) m |})
                 (m0 :: others)) = map fst ((g, t') :: gts')).
  { rewrite map_map. cbn [mark]. unfold m0, others.
    rewrite <- matches_of_step. apply map_group_matches_of. }
  assert (Hothers : forall m, In m others -> m_start m0 < m_start m).
  { intros m Hm. apply matches_of_start_ge in Hm. unfold m0; simpl. lia. }
  assert (Hrest : gts' <> [] ->
            map (fun m => {| index := n; mark := group m;
                             position := position_of (m0 :: others)
                                           (t0 ++ g ++ rest) m |}) others
            = rest_marks n gts').
  { intros Hne. unfold others.
    apply (@positions_rest cls n (m0 :: others) _ _ _ _ Sc'
             (0 + length t0 + length g) (t0 ++ g)).
    - now rewrite <- app_assoc.
    - intros m Hm. rewrite is_match_earlier; [reflexivity|].
      intros m' Hm'. injection Hm' as <-. now apply Hothers.
    - exact Hne.
    - apply last_error_cons. now apply matches_of_nonempty. }
  destruct t0 as [|c t1].
  - (* the line starts with the first match *)
    assert (Hpos0 : position_of (m0 :: others) ([] ++ g ++ rest) m0 = B).
    { unfold position_of. cbn [hd_error]. rewrite is_match_refl.
      unfold m0; cbn [group app]. now rewrite startswith_app. }
    destruct gts' as [|gt gts''].
    + inversion Sc'; subst. destruct t' as [|e x].
      * cbn [app]. rewrite app_nil_r, str_eqb_refl. reflexivity.
      * replace (str_eqb g ([] ++ g ++ e :: x)) with false
          by (symmetry; apply str_eqb_longer; discriminate).
        cbn [andb]. rewrite (split_marks_scanned Sc0 _ Hmarks).
        cbn [bind map]. rewrite Hpos0. reflexivity.
    + replace (S (length others) =? 1)%nat with false.
      2:{ unfold others. simpl. destruct gt. reflexivity. }
      cbn [andb]. rewrite (split_marks_scanned Sc0 _ Hmarks).
      cbn [bind map]. rewrite Hpos0, Hrest by discriminate.
      destruct gt, t'; reflexivity.
  - (* text before the first match *)
    replace (str_eqb g ((c :: t1) ++ g ++ rest)) with false
      by (symmetry; apply str_eqb_longer; discriminate).
    rewrite andb_false_r. rewrite (split_marks_scanned Sc0 _ Hmarks).
    cbn [bind].
    pose proof (@positions_rest cls n (m0 :: others)
                  ((c :: t1) ++ g ++ rest) _ _ _ Sc0 0 [] eq_refl) as P.
    match goal with
    | |- Ok (_, ?M) = _ =>
        assert (Hall : M = rest_marks n ((g, t') :: gts'))
    end.
    { apply P; [|discriminate|reflexivity].
      intros m [<-|Hm].
      + cbn [group]. rewrite (@not_startswith cls (c :: t1) g rest rest);
          [apply andb_false_r|discriminate|exact Ht|exact He|exact G].
      + rewrite is_match_earlier; [reflexivity|].
        intros m' Hm'. injection Hm' as <-. now apply Hothers. }
    rewrite Hall. destruct t', gts'; reflexivity.
Qed.

End PreserveLineResult.

(** ** One line through [_restore_aux] *)

Lemma restore_aux_cons m marks' text n :
  _restore_aux (m :: marks') text n
  = if (index m =? n)%Z then
      match position m with
      | B =>
          match text with
          | [] => Raise IndexError
          | t0 :: rest => _restore_aux marks' ((mark m ++ t0) :: rest) n
          end
      | E =>
          match text with
          | [] => Raise IndexError
          | t0 :: rest =>
              r <- _restore_aux marks' rest (n + 1)%Z ;;
              Ok ((t0 ++ mark m) :: r)
          end
      | A =>
          r <- _restore_aux marks' text (n + 1)%Z ;;
          Ok (mark m :: r)
      | I =>
          match text with
          | t0 :: t1 :: rest =>
              _restore_aux marks' ((t0 ++ mark m ++ t1) :: rest) n
          | _ => Raise IndexError
          end
      end
    else
      match text with
      | [] => Raise IndexError
      | t0 :: rest =>
          r <- _restore_aux (m :: marks') rest (n + 1)%Z ;;
          Ok (t0 :: r)
      end.
Proof. destruct text; reflexivity. Qed.

(** With no mark left for line [n], the front chunk is line [n]. *)
Lemma restore_emit marks c text n :
  later n marks ->
  _restore_aux marks (c :: text) n
  = (r <- _restore_aux marks text (n + 1)%Z ;; Ok (c :: r)).
Proof.
  intros H. destruct marks as [|m ms]; [reflexivity|].
  rewrite restore_aux_cons. inversion H; subst.
  destruct (Z.eqb_spec (index m) n); [lia|reflexivity].
Qed.

Lemma restore_rest marks' text' n : forall gts acc,
  inner_nonempty gts = true ->
  later n marks' ->
  _restore_aux (rest_marks n gts ++ marks')
    (acc :: filter nonempty (map snd gts) ++ text') n
  = (r <- _restore_aux marks' text' (n + 1)%Z ;;
     Ok ((acc ++ pieces gts) :: r)).
Proof.
  induction gts as [|[g t] gts IH]; intros acc Hin Hl.
  - simpl. rewrite app_nil_r. now apply restore_emit.
  - cbn [rest_marks app]. rewrite restore_aux_cons.
    cbn [index mark position]. rewrite Z.eqb_refl.
    destruct gts as [|gt gts'].
    + destruct t as [|e x].
      * simpl. now rewrite !app_nil_r.
      * cbn [map snd filter nonempty app rest_marks].
        rewrite restore_emit by assumption.
        simpl. rewrite !app_nil_r. repeat rewrite <- app_assoc. reflexivity.
    + cbn [inner_nonempty] in Hin. apply andb_true_iff in Hin as [Ht Hin].
      destruct t as [|e x]; [discriminate|].
      cbv match.
      change (filter nonempty (map snd (((g, e :: x) :: gt :: gts'))))
        with ((e :: x) :: filter nonempty (map snd (gt :: gts'))).
      cbn [app]. refine (eq_trans (IH (acc ++ g ++ e :: x) Hin Hl) _).
      change (pieces ((g, e :: x) :: gt :: gts'))
        with (g ++ (e :: x) ++ pieces (gt :: gts')).
      repeat rewrite <- app_assoc. reflexivity.
Qed.

Lemma restore_line marks' text' n t0 gts :
  t0 ++ pieces gts <> [] ->
  inner_nonempty gts = true ->
  later n marks' ->
  _restore_aux (snd (line_result n t0 gts) ++ marks')
    (filter nonempty (fst (line_result n t0 gts)) ++ text') n
  = (r <- _restore_aux marks' text' (n + 1)%Z ;;
     Ok ((t0 ++ pieces gts) :: r)).
Proof.
  intros Hne Hin Hl.
  destruct gts as [|[g t1] gts'].
  - simpl in *. rewrite app_nil_r in *.
    destruct t0 as [|c t0]; [congruence|].
    simpl. now apply restore_emit.
  - destruct t0 as [|c t0].
    + destruct gts' as [|gt gts''].
      * destruct t1 as [|e x].
        -- cbn [line_result fst snd filter app]. rewrite restore_aux_cons.
           cbn [index mark position pieces app]. rewrite Z.eqb_refl.
           now rewrite !app_nil_r.
        -- cbn [line_result fst snd map filter nonempty app rest_marks].
           rewrite restore_aux_cons. cbn [index mark position].
           rewrite Z.eqb_refl.
           refine (eq_trans
                     (@restore_rest marks' text' n [] (g ++ e :: x) eq_refl Hl) _).
           cbn [pieces]. now rewrite !app_nil_r.
      * cbn [inner_nonempty] in Hin. apply andb_true_iff in Hin as [Ht Hin].
        destruct t1 as [|e x]; [discriminate|].
        change (fst (line_result n [] ((g, e :: x) :: gt :: gts'')))
          with ([] :: (e :: x) :: map snd (gt :: gts'')).
        change (snd (line_result n [] ((g, e :: x) :: gt :: gts'')))
          with ({| index := n; mark := g; position := B |}
                  :: rest_marks n (gt :: gts'')).
        cbn [filter nonempty app]. rewrite restore_aux_cons.
        cbn [index mark position]. rewrite Z.eqb_refl.
        refine (eq_trans
                  (@restore_rest marks' text' n (gt :: gts'') (g ++ e :: x)
                     Hin Hl) _).
        change (pieces ((g, e :: x) :: gt :: gts''))
          with (g ++ (e :: x) ++ pieces (gt :: gts'')).
        cbn [app]. repeat rewrite <- app_assoc. reflexivity.
    + assert (R : line_result n (c :: t0) ((g, t1) :: gts')
                  = ((c :: t0) :: map snd ((g, t1) :: gts'),
                     rest_marks n ((g, t1) :: gts')))
        by (destruct t1, gts'; reflexivity).
      rewrite R. cbn [fst snd].
      exact (@restore_rest marks' text' n ((g, t1) :: gts') (c :: t0) Hin Hl).
Qed.

(** ** What the setter compiles *)

Lemma re_compile_shape src p :
  re_compile src = Parsed p -> p = mark_pattern (body p).
Proof.
  unfold re_compile, pbind.
  destruct (tokenize src) as [ts| |]; try discriminate.
  destruct ts as [|[c|c] [|[c2|c2] [|[c3|c3] ts]]]; try discriminate.
  destruct (_ && _ && _)%bool; try discriminate.
  destruct (match ts with [] => _ | _ :: _ => _ end) as [neg ts2].
  destruct (parse_set_items false ts2) as [[its rest]| |]; try discriminate.
  destruct (tokens_eqb rest _); try discriminate.
  intros H; injection H as <-. reflexivity.
Qed.

Lemma Punctuation_init_shape value self :
  Punctuation_init value self ->
  _marks_re self = mark_pattern (body (_marks_re self)).
Proof.
  intros (j & _ & H). unfold marks_setter, pbind in H.
  destruct (re_compile (marks_re_source j)) as [re| |] eqn:Hc;
    try discriminate.
  injection H as <-. simpl. now apply re_compile_shape in Hc.
Qed.

(** ** Whole texts *)

Lemma separated_matches_of gts : forall pos t,
  separated (matches_of pos t gts) = inner_nonempty gts.
Proof.
  induction gts as [|[g t'] gts IH]; intros pos t; [reflexivity|].
  rewrite matches_of_step. cbn [separated inner_nonempty].
  destruct gts as [|[g2 t2] gts]; [reflexivity|].
  rewrite <- IH with (pos := pos + length t + length g) (t := t').
  rewrite matches_of_step at 1. cbn [m_start group]. f_equal.
  destruct t' as [|e x]; simpl.
  - apply Nat.ltb_ge. lia.
  - apply Nat.ltb_lt. lia.
Qed.

Lemma rest_marks_index n gts :
  Forall (fun m => index m = n) (rest_marks n gts).
Proof. induction gts as [|[g t] gts IH]; simpl; constructor; auto. Qed.

Lemma line_result_index n t0 gts :
  Forall (fun m => index m = n) (snd (line_result n t0 gts)).
Proof.
  destruct gts as [|[g t1] gts']; [destruct t0; constructor|].
  destruct t0, t1, gts'; cbn [line_result snd];
    try apply (rest_marks_index n (_ :: _));
    constructor; try reflexivity; try constructor;
    apply rest_marks_index.
Qed.

Section Texts.
Variable self : Punctuation.
Variable cls : charset.
Hypothesis Hre : _marks_re self = mark_pattern cls.

Lemma preserve_line_cut line n :
  exists t0 gts,
    Scanned cls line t0 gts
    /\ finditer (_marks_re self) line = matches_of 0 t0 gts
    /\ _preserve_line self line n = Ok (line_result n t0 gts).
Proof.
  destruct (finditer_scanned cls line) as (t0 & gts & Sc & Hf).
  rewrite <- Hre in Hf. exists t0, gts. split; [exact Sc|].
  split; [exact Hf|]. now apply (preserve_line_scanned self (cls := cls)).
Qed.

Lemma preserve_loop_ok lines : forall n,
  exists cs ms, preserve_loop self n lines = Ok (cs, ms).
Proof.
  induction lines as [|l lines IH]; intros n; [now exists [], []|].
  destruct (preserve_line_cut l n) as (t0 & gts & _ & _ & Hl).
  destruct (IH (n + 1)%Z) as (cs & ms & Hr).
  cbn [preserve_loop]. rewrite Hl, Hr. cbn [bind].
  destruct (line_result n t0 gts). eauto.
Qed.

Lemma preserve_loop_index lines : forall n cs ms,
  preserve_loop self n lines = Ok (cs, ms) ->
  Forall (fun m => (n <= index m)%Z) ms.
Proof.
  induction lines as [|l lines IH]; intros n cs ms H.
  - injection H as <- <-. constructor.
  - cbn [preserve_loop] in H.
    destruct (preserve_line_cut l n) as (t0 & gts & _ & _ & Hl).
    rewrite Hl in H. cbn [bind] in H.
    pose proof (line_result_index n t0 gts) as Hi.
    destruct (line_result n t0 gts) as [c1 m1].
    destruct (preserve_loop self (n + 1) lines) as [[c2 m2]|] eqn:Hr;
      [|discriminate].
    cbn [bind] in H. injection H as <- <-.
    apply Forall_app; split.
    + eapply Forall_impl; [|exact Hi]. simpl. intros; lia.
    + eapply Forall_impl; [|exact (IH _ _ _ Hr)]. simpl. intros; lia.
Qed.

(** [_restore_aux] walks back over what [preserve] made of restorable
    lines, whatever follows them. *)
Lemma restore_preserve_loop lines : forall n cs ms text' marks',
  Forall (fun l => restorable self l = true) lines ->
  preserve_loop self n lines = Ok (cs, ms) ->
  Forall (fun m => (n + Z.of_nat (length lines) <= index m)%Z) marks' ->
  _restore_aux (ms ++ marks') (filter nonempty cs ++ text') n
  = (r <- _restore_aux marks' text' (n + Z.of_nat (length lines))%Z ;;
     Ok (lines ++ r)).
Proof.
  induction lines as [|l lines IH]; intros n cs ms text' marks' HL H Hm.
  - injection H as <- <-. simpl. rewrite Z.add_0_r.
    now destruct (_restore_aux marks' text' n).
  - cbn [preserve_loop] in H.
    destruct (preserve_line_cut l n) as (t0 & gts & Sc & Hf & Hl).
    rewrite Hl in H. cbn [bind] in H.
    inversion HL as [|? ? Hr HL']; subst.
    unfold restorable in Hr. apply andb_true_iff in Hr as [Hne Hsep].
    rewrite Hf, separated_matches_of in Hsep.
    pose proof (Scanned_line Sc) as Hline.
    destruct (line_result n t0 gts) as [c1 m1] eqn:Hres.
    destruct (preserve_loop self (n + 1) lines) as [[c2 m2]|] eqn:Hrest;
      [|discriminate].
    cbn [bind] in H. injection H as <- <-.
    rewrite filter_app, <- !app_assoc.
    assert (Hlater : later n (m2 ++ marks')).
    { apply Forall_app; split.
      - eapply Forall_impl; [|exact (preserve_loop_index _ _ Hrest)].
        simpl; intros; lia.
      - eapply Forall_impl; [|exact Hm]. intros m Hm0; cbv beta in *.
        cbn [length] in Hm0. rewrite Nat2Z.inj_succ in Hm0. lia. }
    pose proof (@restore_line (m2 ++ marks') (filter nonempty c2 ++ text')
                  n t0 gts) as R.
    rewrite Hres in R. cbn [fst snd] in R. rewrite R; auto.
    + rewrite (IH (n + 1)%Z c2 m2 text' marks' HL' Hrest).
      * replace (n + 1 + Z.of_nat (length lines))%Z
          with (n + Z.of_nat (length (l :: lines)))%Z
          by (cbn [length]; rewrite Nat2Z.inj_succ; lia).
        rewrite <- Hline.
        now destruct (_restore_aux marks' text' _).
      * eapply Forall_impl; [|exact Hm]. intros m Hm0; cbv beta in *.
        cbn [length] in Hm0. rewrite Nat2Z.inj_succ in Hm0. lia.
    + rewrite <- Hline. now destruct l.
Qed.

End Texts.

(** ** The default processor *)

Lemma default_punctuation_init :
  Punctuation_init default_marks default_punctuation.
Proof.
  exists _DEFAULT_MARKS. split.
  - unfold join_set. vm_compute. apply Permutation_refl.
  - vm_compute. reflexivity.
Qed.

(** ** The round trip *)

(** The round trip, for a processor whose pattern is a set between
    whitespace: the lines come back when none is empty and no two runs of
    one line are adjacent. *)
Lemma roundtrip_of_restorable value self lines :
  Punctuation_init value self ->
  Forall (fun l => restorable self l = true) lines ->
  exists chunks marks,
    preserve self (Lines lines) = Ok (chunks, marks)
    /\ restore (Lines chunks) marks = Ok lines.
Proof.
  intros Hinit HL. apply Punctuation_init_shape in Hinit.
  destruct (preserve_loop_ok self Hinit lines 0) as (cs & ms & Hp).
  exists (filter nonempty cs), ms. split.
  - unfold preserve. cbn [str2list]. now rewrite Hp.
  - unfold restore. cbn [str2list].
    pose proof (@restore_preserve_loop self _ Hinit lines 0 cs ms [] []
                  HL Hp (Forall_nil _)) as R.
    rewrite !app_nil_r in R. rewrite R. cbn [_restore_aux bind].
    now rewrite app_nil_r.
Qed.

(** C1 as stated fails: an empty line is lost, and two adjacent runs make
    [restore] raise [IndexError]. *)
Lemma roundtrip_counterexample :
  (preserve default_punctuation (Lines [u ""]) = Ok ([], [])
   /\ restore (Lines []) [] = Ok []
   /\ @nil str <> [u ""])
  /\ (preserve default_punctuation (Lines [u "a, , b"])
      = Ok ([u "a"; u "b"],
            [{| index := 0; mark := u ", "; position := I |};
             {| index := 0; mark := u ", "; position := I |}])
      /\ restore (Lines [u "a"; u "b"])
           [{| index := 0; mark := u ", "; position := I |};
            {| index := 0; mark := u ", "; position := I |}]
         = Raise IndexError).
Proof.
  split; [split; [|split]|split]; try (vm_compute; reflexivity).
  discriminate.
Qed.

(** ** Restoring *)

(** C10: with no marks [restore] returns the chunk sequence unchanged,
    each chunk one output line, in order. *)
Theorem restore_no_marks (chunks : list str) :
  restore (Lines chunks) [] = Ok chunks.
Proof. reflexivity. Qed.

(** C5: a line that is one match of the mark pattern from its first to its
    last character gives no chunk and one mark, tagged [A] and holding the
    whole line; [_restore_aux] puts such a mark back as a line of its
    own. *)
Theorem isolated_line self line m n :
  finditer (_marks_re self) line = [m] ->
  group m = line ->
  _preserve_line self line n
  = Ok ([], [{| index := n; mark := line; position := A |}])
  /\ (forall marks text,
        _restore_aux ({| index := n; mark := line; position := A |} :: marks)
          text n
        = (r <- _restore_aux marks text (n + 1)%Z ;; Ok (line :: r)))
  /\ preserve self (Lines [line])
     = Ok ([], [{| index := 0; mark := line; position := A |}])
  /\ restore (Lines []) [{| index := 0; mark := line; position := A |}]
     = Ok [line].
Proof.
  intros Hm Hg.
  assert (Hl : forall k, _preserve_line self line k
                = Ok ([], [{| index := k; mark := line; position := A |}])).
  { intros k. unfold _preserve_line. rewrite Hm. cbn [length group].
    rewrite Hg, str_eqb_refl. reflexivity. }
  split; [apply Hl|]. split; [|split].
  - intros marks text. rewrite restore_aux_cons.
    cbn [index mark position]. now rewrite Z.eqb_refl.
  - unfold preserve. cbn [str2list preserve_loop]. rewrite Hl. reflexivity.
  - reflexivity.
Qed.

Lemma isolated_line_witness :
  _preserve_line default_punctuation (u "?!...") 3
  = Ok ([], [{| index := 3; mark := u "?!..."; position := A |}])
  /\ (forall marks text,
        _restore_aux ({| index := 3; mark := u "?!..."; position := A |}
                        :: marks) text 3
        = (r <- _restore_aux marks text (3 + 1)%Z ;; Ok (u "?!..." :: r)))
  /\ preserve default_punctuation (Lines [u "?!..."])
     = Ok ([], [{| index := 0; mark := u "?!..."; position := A |}])
  /\ restore (Lines []) [{| index := 0; mark := u "?!..."; position := A |}]
     = Ok [u "?!..."].
Proof.
  apply (@isolated_line default_punctuation (u "?!...")
           {| m_start := 0; group := u "?!..." |} 3);
    vm_compute; reflexivity.
Defined.

Lemma restore_calls_cons m marks' text n :
  restore_calls (m :: marks') text n
  = (m :: marks', text, n) ::
    if (index m =? n)%Z then
      match position m with
      | B =>
          match text with
          | [] => []
          | t0 :: rest => restore_calls marks' ((mark m ++ t0) :: rest) n
          end
      | E =>
          match text with
          | [] => []
          | t0 :: rest => restore_calls marks' rest (n + 1)%Z
          end
      | A => restore_calls marks' text (n + 1)%Z
      | I =>
          match text with
          | t0 :: t1 :: rest =>
              restore_calls marks' ((t0 ++ mark m ++ t1) :: rest) n
          | _ => []
          end
      end
    else
      match text with
      | [] => []
      | t0 :: rest => restore_calls (m :: marks') rest (n + 1)%Z
      end.
Proof. destruct text; reflexivity. Qed.

(** A failing call makes the whole walk fail with the same exception:
    nothing is returned. *)
Lemma restore_fails_through marks : forall text n ms' text' n' e,
  In (ms', text', n') (restore_calls marks text n) ->
  _restore_aux ms' text' n' = Raise e ->
  _restore_aux marks text n = Raise e.
Proof.
  induction marks as [|m marks IH].
  - intros text n ms' text' n' e Hin He. simpl in Hin.
    destruct Hin as [H|H]; [|contradiction]. inversion H; subst. exact He.
  - intros text; induction text as [|t0 text IHt];
      intros n ms' text' n' e Hin He;
      rewrite restore_calls_cons in Hin; apply in_inv in Hin;
      (destruct Hin as [H|Hin]; [inversion H; subst; exact He|]);
      rewrite restore_aux_cons;
      destruct (index m =? n)%Z; try destruct (position m);
      try contradiction;
      try (destruct text as [|t1 rest]; [contradiction|]);
      try (erewrite IH by eassumption; reflexivity);
      try (eapply IH; eassumption);
      try (erewrite IHt by eassumption; reflexivity).
Qed.

(** The counter only grows, one chunk at least is consumed per line it
    passes: a pending mark for an earlier line, or for a line further than
    the chunks reach, is never placed. *)
Lemma restore_unreachable_head m marks : forall text n,
  (index m < n \/ n + Z.of_nat (length text) < index m)%Z ->
  _restore_aux (m :: marks) text n = Raise IndexError.
Proof.
  intros text;
    induction text as [|t0 text IH]; intros n H; rewrite restore_aux_cons.
  - destruct (Z.eqb_spec (index m) n); [simpl in H; lia|reflexivity].
  - destruct (Z.eqb_spec (index m) n);
      [cbn [length] in H; rewrite Nat2Z.inj_succ in H; lia|].
    rewrite IH; [reflexivity|].
    cbn [length] in H. rewrite Nat2Z.inj_succ in H. lia.
Qed.

Lemma restore_raises_index_error marks : forall text n e,
  _restore_aux marks text n = Raise e -> e = IndexError.
Proof.
  induction marks as [|m marks IH]; [discriminate|].
  intros text; induction text as [|t0 text IHt]; intros n e H;
    rewrite restore_aux_cons in H;
    destruct (index m =? n)%Z; try destruct (position m);
    try (destruct text as [|t1 rest]);
    try (injection H as <-; reflexivity);
    try (eapply IH; eassumption);
    repeat match goal with
    | H : bind ?c _ = Raise _ |- _ =>
        let R := fresh "R" in
        destruct c eqn:R; cbn [bind] in H; [discriminate|injection H as <-]
    | R : _restore_aux marks _ _ = Raise _ |- _ => exact (IH _ _ _ R)
    | R : _restore_aux (m :: marks) _ _ = Raise _ |- _ => exact (IHt _ _ R)
    end.
Qed.

(** A walk that returns has stood at every mark with the counter on the
    line of the mark. *)
Lemma restore_places marks : forall text n out,
  _restore_aux marks text n = Ok out ->
  forall before m after,
    marks = before ++ m :: after ->
    exists chunks n',
      In (m :: after, chunks, n') (restore_calls marks text n)
      /\ index m = n'.
Proof.
  induction marks as [|m0 marks IH].
  { intros text n out _ [|b before] m after H; discriminate. }
  assert (Hrec : forall text n out chunks' k before m after,
             _restore_aux marks chunks' k = Ok out ->
             incl (restore_calls marks chunks' k)
                  (restore_calls (m0 :: marks) text n) ->
             m0 :: marks = before ++ m :: after ->
             (index m0 =? n)%Z = true ->
             exists chunks n',
               In (m :: after, chunks, n') (restore_calls (m0 :: marks) text n)
               /\ index m = n').
  { intros text n out chunks' k [|b before] m after Hok Hincl Hsplit Heq.
    - injection Hsplit as <- <-. exists text, n. split.
      + rewrite restore_calls_cons. now left.
      + now apply Z.eqb_eq.
    - injection Hsplit as <- Hsplit.
      destruct (IH _ _ _ Hok _ _ _ Hsplit) as (chunks & n' & Hin & Hn).
      exists chunks, n'. split; [now apply Hincl|exact Hn]. }
  assert (Hnext : forall text n before m after,
             (index m0 =? n)%Z = false ->
             (forall before m after,
                 m0 :: marks = before ++ m :: after ->
                 exists chunks n',
                   In (m :: after, chunks, n')
                      (restore_calls (m0 :: marks) text (n + 1)%Z)
                   /\ index m = n') ->
             m0 :: marks = before ++ m :: after ->
             forall t0,
             exists chunks n',
               In (m :: after, chunks, n')
                  (restore_calls (m0 :: marks) (t0 :: text) n)
               /\ index m = n').
  { intros text n before m after Heq Hall Hsplit t0.
    destruct (Hall _ _ _ Hsplit) as (chunks & n' & Hin & Hn).
    exists chunks, n'. split; [|exact Hn].
    rewrite restore_calls_cons, Heq. now right. }
  intros text; induction text as [|t0 text IHt];
    intros n out H before m after Hsplit;
    rewrite restore_aux_cons in H;
    destruct (index m0 =? n)%Z eqn:Heq.
  - destruct (position m0) eqn:Hpos; try discriminate.
    destruct (_restore_aux marks [] (n + 1)%Z) as [r|] eqn:R; [|discriminate].
    apply (Hrec [] n r [] (n + 1)%Z before m after R); auto.
    rewrite restore_calls_cons, Heq, Hpos. apply incl_tl, incl_refl.
  - discriminate.
  - destruct (position m0) eqn:Hpos.
    + apply (Hrec (t0 :: text) n out _ _ before m after H); auto.
      rewrite restore_calls_cons, Heq, Hpos. apply incl_tl, incl_refl.
    + destruct (_restore_aux marks text (n + 1)%Z) as [r|] eqn:R;
        [|discriminate].
      apply (Hrec (t0 :: text) n r _ _ before m after R); auto.
      rewrite restore_calls_cons, Heq, Hpos. apply incl_tl, incl_refl.
    + destruct (_restore_aux marks (t0 :: text) (n + 1)%Z) as [r|] eqn:R;
        [|discriminate].
      apply (Hrec (t0 :: text) n r _ _ before m after R); auto.
      rewrite restore_calls_cons, Heq, Hpos. apply incl_tl, incl_refl.
    + destruct text as [|t1 rest]; [discriminate|].
      apply (Hrec (t0 :: t1 :: rest) n out _ _ before m after H); auto.
      rewrite restore_calls_cons, Heq, Hpos. apply incl_tl, incl_refl.
  - destruct (_restore_aux (m0 :: marks) text (n + 1)%Z) as [r|] eqn:R;
      [|discriminate].
    apply (Hnext text n before m after Heq); auto.
    intros before' m' after' Hs. exact (IHt _ _ R _ _ _ Hs).
Qed.

(** C4: whenever a mark of the sequence has a line index at which the walk
    of [restore] never stands while the mark is the next one to place,
    [restore] raises [IndexError] and returns nothing. *)
Theorem restore_malformed t marks before m after :
  marks = before ++ m :: after ->
  (forall chunks n,
      In (m :: after, chunks, n) (restore_calls marks (str2list t) 0) ->
      index m <> n) ->
  restore t marks = Raise IndexError.
Proof.
  intros Hsplit Hnever. unfold restore.
  destruct (_restore_aux marks (str2list t) 0) as [out|e] eqn:H.
  - destruct (@restore_places marks _ _ _ H _ _ _ Hsplit)
      as (chunks & n & Hin & Hn).
    now destruct (Hnever chunks n Hin).
  - f_equal. exact (@restore_raises_index_error marks _ _ _ H).
Qed.

Lemma restore_malformed_witness :
  restore (Lines [u "a"; u "b"])
    [{| index := 0; mark := u "!"; position := E |};
     {| index := 5; mark := u "?"; position := E |}]
  = Raise IndexError.
Proof.
  apply (@restore_malformed (Lines [u "a"; u "b"]) _
           [{| index := 0; mark := u "!"; position := E |}]
           {| index := 5; mark := u "?"; position := E |} []).
  - reflexivity.
  - intros chunks n H. vm_compute in H.
    destruct H as [H|[H|[H|H]]]; try contradiction; inversion H; discriminate.
Defined.

(** ** Lines without marks, empty lines *)

Lemma finditer_from_mark_free cls fuel : forall s pos,
  mark_free cls s -> finditer_from fuel (mark_pattern cls) pos s = [].
Proof.
  induction fuel as [|fuel IH]; intros s pos Hs; [reflexivity|].
  cbn [finditer_from]. rewrite (@re_match_mark_free cls s Hs).
  destruct s as [|c s]; [reflexivity|]. inversion Hs; subst. now apply IH.
Qed.

Section MarkFree.
Variable self : Punctuation.
Variable cls : charset.
Hypothesis Hre : _marks_re self = mark_pattern cls.

Lemma preserve_line_mark_free line n :
  mark_free cls line -> _preserve_line self line n = Ok ([line], []).
Proof.
  intros H. unfold _preserve_line, finditer. rewrite Hre.
  now rewrite finditer_from_mark_free.
Qed.

Lemma preserve_loop_mark_free lines : forall n,
  Forall (mark_free cls) lines -> preserve_loop self n lines = Ok (lines, []).
Proof.
  induction lines as [|l lines IH]; intros n H; [reflexivity|].
  inversion H; subst. cbn [preserve_loop].
  rewrite preserve_line_mark_free, IH by assumption. reflexivity.
Qed.

Lemma preserve_loop_app l1 : forall n l2 c1 m1 c2 m2,
  preserve_loop self n l1 = Ok (c1, m1) ->
  preserve_loop self (n + Z.of_nat (length l1)) l2 = Ok (c2, m2) ->
  preserve_loop self n (l1 ++ l2) = Ok (c1 ++ c2, m1 ++ m2).
Proof.
  induction l1 as [|l l1 IH]; intros n l2 c1 m1 c2 m2 H1 H2.
  - injection H1 as <- <-. simpl in H2. rewrite Z.add_0_r in H2. exact H2.
  - cbn [preserve_loop app] in *.
    destruct (_preserve_line self l n) as [[a b]|]; [|discriminate].
    cbn [bind] in *.
    destruct (preserve_loop self (n + 1) l1) as [[c m]|] eqn:Hl;
      [|discriminate].
    cbn [bind] in H1. injection H1 as <- <-.
    rewrite (IH (n + 1)%Z l2 c m c2 m2 Hl).
    + cbn [bind]. now rewrite !app_assoc.
    + rewrite <- H2. f_equal. cbn [length]. rewrite Nat2Z.inj_succ. lia.
Qed.

End MarkFree.

Lemma marks_setter_nil : marks_setter [] = ReError.
Proof. reflexivity. Qed.

Lemma Punctuation_init_nonempty value self :
  Punctuation_init value self -> value <> [].
Proof.
  intros (j & Hj & Hs) ->. unfold join_set in Hj. simpl in Hj.
  apply Permutation_sym, Permutation_nil in Hj. subst j. discriminate.
Qed.

(** Lines without a character of the set are their own chunks. *)
Lemma preserve_mark_free_lines value self lines :
  Punctuation_init value self ->
  Forall (mark_free (body (_marks_re self))) lines ->
  value <> []
  /\ preserve self (Lines lines) = Ok (filter nonempty lines, []).
Proof.
  intros Hinit Hl. split; [exact (Punctuation_init_nonempty Hinit)|].
  apply Punctuation_init_shape in Hinit.
  unfold preserve. cbn [str2list].
  now rewrite (@preserve_loop_mark_free self _ Hinit lines 0 Hl).
Qed.

(** C3 as stated fails: the setter raises [re.error] on the empty string,
    so no processor with the empty alphabet exists. *)
Lemma empty_alphabet_counterexample :
  marks_setter [] = ReError /\ forall self, ~ Punctuation_init [] self.
Proof.
  split; [reflexivity|].
  intros self H. now apply (Punctuation_init_nonempty H).
Qed.

(** ** Alphabets without metacharacters *)

Lemma plain_mark_spec c :
  plain_mark c = true ->
  (c =? chr "\")%N = false /\ (c =? chr "]")%N = false
  /\ (c =? chr "^")%N = false /\ (c =? chr "-")%N = false.
Proof.
  unfold plain_mark. rewrite negb_true_iff, !orb_false_iff. tauto.
Qed.

Lemma tokenize_plain j rest ts :
  forallb plain_mark j = true ->
  tokenize rest = Parsed ts ->
  tokenize (j ++ rest) = Parsed (map TChar j ++ ts).
Proof.
  induction j as [|c j IH]; intros Hj Hr; [exact Hr|].
  cbn [forallb] in Hj. apply andb_true_iff in Hj as [Hc Hj].
  apply plain_mark_spec in Hc as (Hc & _).
  cbn [app tokenize map]. rewrite Hc, (IH Hj Hr). reflexivity.
Qed.

Lemma tokenize_source marks ts :
  tokenize (marks ++ u "]+\s*") = Parsed ts ->
  tokenize (marks_re_source marks)
  = Parsed (TEsc (chr "s") :: TChar (chr "*") :: TChar (chr "[") :: ts).
Proof.
  intros H. unfold marks_re_source.
  change (u "\s*[") with [chr "\"; chr "s"; chr "*"; chr "["].
  cbn [app tokenize].
  change (chr "\" =? chr "\")%N with true.
  change (chr "*" =? chr "\")%N with false.
  change (chr "[" =? chr "\")%N with false.
  cbv iota. rewrite H. reflexivity.
Qed.

Lemma parse_set_items_cons b this ts1 :
  parse_set_items b (this :: ts1)
  = if b && is_tchar this "]" then Parsed ([], ts1)
    else
      pbind (token_code this) (fun code1 =>
      let single :=
        pbind (parse_set_items true ts1) (fun '(its, rest) =>
        Parsed (code1 :: its, rest)) in
      match ts1 with
      | dash :: ts2 =>
          if is_tchar dash "-" then
            match ts2 with
            | [] => ReError
            | that :: ts3 =>
                if is_tchar that "]"
                then Parsed ([code1; Literal (chr "-")], ts3)
                else
                  pbind (token_code that) (fun code2 =>
                  match code1, code2 with
                  | Literal lo, Literal hi =>
                      if (hi <? lo)%N then ReError
                      else
                        pbind (parse_set_items true ts3) (fun '(its, rest) =>
                        Parsed (Range lo hi :: its, rest))
                  | _, _ => ReError
                  end)
            end
          else single
      | [] => single
      end).
Proof. reflexivity. Qed.

Lemma parse_set_plain j : forall b rest,
  forallb plain_mark j = true ->
  b = true \/ j <> [] ->
  parse_set_items b (map TChar j ++ TChar (chr "]") :: rest)
  = Parsed (map Literal j, rest).
Proof.
  induction j as [|c j IH]; intros b rest Hj Hb.
  - destruct Hb as [->|Hb]; [|congruence].
    cbn [map app]. rewrite parse_set_items_cons. cbn [is_tchar].
    now rewrite N.eqb_refl.
  - cbn [forallb] in Hj. apply andb_true_iff in Hj as [Hc Hj].
    apply plain_mark_spec in Hc as (_ & Hc & _ & _).
    cbn [map app]. rewrite parse_set_items_cons. cbn [is_tchar].
    rewrite Hc, andb_false_r. cbn [token_code pbind].
    pose proof (IH true rest Hj (or_introl eq_refl)) as R.
    destruct j as [|d j].
    + cbn [map app] in *. cbn [is_tchar].
      change (chr "]" =? chr "-")%N with false. cbv iota.
      rewrite R. reflexivity.
    + cbn [forallb] in Hj. apply andb_true_iff in Hj as [Hd _].
      apply plain_mark_spec in Hd as (_ & _ & _ & Hd).
      cbn [map app] in *. cbn [is_tchar]. rewrite Hd.
      rewrite R. reflexivity.
Qed.

(** The pattern of an alphabet without metacharacters is the set of its
    characters. *)
Lemma marks_setter_plain j :
  plain_alphabet j = true ->
  marks_setter j
  = Parsed {| _marks := j; _marks_re := mark_pattern (literal_set j) |}.
Proof.
  unfold plain_alphabet. intros H. apply andb_true_iff in H as [Hne Hj].
  unfold marks_setter, re_compile.
  rewrite (@tokenize_source j
             (map TChar j ++ [TChar (chr "]"); TChar (chr "+");
                              TEsc (chr "s"); TChar (chr "*")])).
  2:{ now apply tokenize_plain. }
  cbn [pbind]. rewrite !N.eqb_refl. cbn [andb].
  destruct j as [|c j]; [discriminate|].
  pose proof Hj as Hj'. cbn [forallb] in Hj'.
  apply andb_true_iff in Hj' as [Hc _].
  apply plain_mark_spec in Hc as (_ & _ & Hc & _).
  cbn [map app is_tchar]. rewrite Hc.
  assert (Hn : c :: j <> []) by discriminate.
  pose proof (@parse_set_plain (c :: j) false
                [TChar (chr "+"); TEsc (chr "s"); TChar (chr "*")] Hj
                (or_intror Hn)) as R.
  cbn [map app] in R. rewrite R. cbn [pbind].
  reflexivity.
Qed.

Lemma in_literal_set j c : in_set (literal_set j) c = true <-> In c j.
Proof.
  unfold in_set, literal_set; cbn [negate items xorb].
  rewrite existsb_exists. split.
  - intros (it & Hin & Hit). apply in_map_iff in Hin as (d & <- & Hd).
    simpl in Hit. apply N.eqb_eq in Hit. now subst.
  - intros H. exists (Literal c). split; [now apply in_map|]. apply N.eqb_refl.
Qed.

Lemma join_set_In value j c : join_set value j -> In c j <-> In c value.
Proof.
  unfold join_set. intros H. rewrite <- (nodup_In N.eq_dec value c).
  split; intros Hc.
  - exact (Permutation_in c H Hc).
  - exact (Permutation_in c (Permutation_sym H) Hc).
Qed.

Lemma join_set_plain value j :
  join_set value j -> plain_alphabet value = true -> plain_alphabet j = true.
Proof.
  intros Hj H. unfold plain_alphabet in *.
  apply andb_true_iff in H as [Hne Hall]. apply andb_true_iff. split.
  - destruct j as [|c j]; [|reflexivity]. destruct value as [|v value];
      [discriminate|].
    exfalso. apply (proj2 (join_set_In v Hj)). now left.
  - rewrite forallb_forall in *. intros c Hc. apply Hall.
    now apply (join_set_In c Hj).
Qed.

(** A processor built from an alphabet without metacharacters matches the
    characters of the alphabet, whatever the order of the set. *)
Lemma Punctuation_init_plain value self :
  plain_alphabet value = true ->
  Punctuation_init value self ->
  exists j, (forall c, In c j <-> In c value)
            /\ _marks_re self = mark_pattern (literal_set j).
Proof.
  intros Hp (j & Hj & Hs).
  rewrite (@marks_setter_plain j (@join_set_plain value j Hj Hp)) in Hs.
  injection Hs as <-. exists j. split; [|reflexivity].
  intros c. now apply join_set_In.
Qed.

(** ** Processors that match the same characters *)

Lemma re_match_ext cls cls' :
  (forall c, in_set cls c = in_set cls' c) ->
  forall s, re_match (mark_pattern cls) s = re_match (mark_pattern cls') s.
Proof.
  intros H s. unfold re_match. cbn [lead body trail mark_pattern].
  apply star_ext; [reflexivity|]. intros [|c x]; [reflexivity|].
  cbn [plus]. rewrite H. destruct (in_set cls' c); [|reflexivity].
  f_equal. now apply star_ext.
Qed.

Lemma finditer_from_ext p q :
  (forall s, re_match p s = re_match q s) ->
  forall fuel pos s, finditer_from fuel p pos s = finditer_from fuel q pos s.
Proof.
  intros H. induction fuel as [|fuel IH]; intros pos s; [reflexivity|].
  cbn [finditer_from]. rewrite H.
  destruct (re_match q s); [now rewrite IH|].
  destruct s; [reflexivity|apply IH].
Qed.

Lemma sub_from_ext p q repl :
  (forall s, re_match p s = re_match q s) ->
  forall fuel s, sub_from fuel p repl s = sub_from fuel q repl s.
Proof.
  intros H. induction fuel as [|fuel IH]; intros s; [reflexivity|].
  cbn [sub_from]. rewrite H.
  destruct (re_match q s); [now rewrite IH|].
  destruct s; [reflexivity|now rewrite IH].
Qed.

Section SameMatcher.
Variables self self' : Punctuation.
Hypothesis Hsame :
  forall s, re_match (_marks_re self) s = re_match (_marks_re self') s.

Lemma remove_ext t : remove self t = remove self' t.
Proof.
  assert (Ha : forall s, remove_aux self s = remove_aux self' s).
  { intros s. unfold remove_aux, re_sub. now rewrite (@sub_from_ext _ _ (u " ") Hsame). }
  destruct t as [s|l]; cbn [remove]; [now rewrite Ha|].
  f_equal. apply map_ext. exact Ha.
Qed.

Lemma preserve_line_ext line n :
  _preserve_line self line n = _preserve_line self' line n.
Proof.
  unfold _preserve_line, finditer.
  now rewrite (@finditer_from_ext _ _ Hsame).
Qed.

Lemma preserve_ext t : preserve self t = preserve self' t.
Proof.
  unfold preserve. f_equal. generalize 0%Z.
  induction (str2list t) as [|l lines IH]; intros n; [reflexivity|].
  cbn [preserve_loop]. now rewrite preserve_line_ext, IH.
Qed.

End SameMatcher.

(** Two processors built from alphabets without metacharacters that hold
    the same characters return the same things. *)
Lemma plain_order_irrelevant value value' self self' :
  plain_alphabet value = true ->
  (forall c, In c value <-> In c value') ->
  Punctuation_init value self ->
  Punctuation_init value' self' ->
  forall t, preserve self t = preserve self' t
            /\ remove self t = remove self' t.
Proof.
  intros Hp Hsame H1 H2.
  assert (Hp' : plain_alphabet value' = true).
  { unfold plain_alphabet in *. apply andb_true_iff in Hp as [Hne Hall].
    apply andb_true_iff. split.
    - destruct value' as [|c v]; [|reflexivity].
      destruct value as [|c v]; [discriminate|].
      exfalso. apply (proj1 (Hsame c)). now left.
    - rewrite forallb_forall in *. intros c Hc. apply Hall. now apply Hsame. }
  destruct (@Punctuation_init_plain _ _ Hp H1) as (j & Hj & Hre).
  destruct (@Punctuation_init_plain _ _ Hp' H2) as (j' & Hj' & Hre').
  assert (Hm : forall s, re_match (_marks_re self) s
                         = re_match (_marks_re self') s).
  { intros s. rewrite Hre, Hre'. apply re_match_ext. intros c.
    apply eq_true_iff_eq. rewrite !in_literal_set, Hj, Hj'. apply Hsame. }
  intros t. split; [now apply preserve_ext|now apply remove_ext].
Qed.

Lemma default_marks_plain : plain_alphabet default_marks = true.
Proof. reflexivity. Qed.

(** C2: with the default alphabet, whatever the order of the set,
    [preserve] of the string hello, my world! gives the chunks hello and
    my world and two marks of line 0: the comma with the space behind it,
    tagged [I], and the exclamation mark, tagged [E]; [restore] gives the
    line back from them. *)
Theorem preserve_hello_world self :
  Punctuation_init default_marks self ->
  preserve self (Str (u "hello, my world!"))
  = Ok ([u "hello"; u "my world"],
        [{| index := 0; mark := u ", "; position := I |};
         {| index := 0; mark := u "!"; position := E |}])
  /\ restore (Lines [u "hello"; u "my world"])
       [{| index := 0; mark := u ", "; position := I |};
        {| index := 0; mark := u "!"; position := E |}]
     = Ok [u "hello, my world!"].
Proof.
  intros Hinit. split; [|vm_compute; reflexivity].
  destruct (@plain_order_irrelevant default_marks default_marks self
              default_punctuation default_marks_plain
              (fun c => iff_refl _) Hinit default_punctuation_init
              (Str (u "hello, my world!"))) as [-> _].
  vm_compute. reflexivity.
Qed.

Lemma preserve_hello_world_witness :
  preserve default_punctuation (Str (u "hello, my world!"))
  = Ok ([u "hello"; u "my world"],
        [{| index := 0; mark := u ", "; position := I |};
         {| index := 0; mark := u "!"; position := E |}])
  /\ restore (Lines [u "hello"; u "my world"])
       [{| index := 0; mark := u ", "; position := I |};
        {| index := 0; mark := u "!"; position := E |}]
     = Ok [u "hello, my world!"].
Proof.
  apply (@preserve_hello_world default_punctuation).
  exact default_punctuation_init.
Defined.

(** C7 as stated fails: the whitespace that starts a line stays in its
    first chunk. *)
Lemma chunks_trimmed_counterexample :
  preserve default_punctuation (Lines [u " a, b"])
  = Ok ([u " a"; u "b"], [{| index := 0; mark := u ", "; position := I |}])
  /\ strip (u " a") <> u " a".
Proof. split; [vm_compute; reflexivity|vm_compute; discriminate]. Qed.

(** C8, at the alphabet made of a, the hyphen and c: two orders of the same
    set give two processors, one that takes the hyphen for a range and
    matches b, one that does not. *)
Theorem marks_order_changes_matcher :
  exists self1 self2,
    Punctuation_init (u "a-c") self1
    /\ Punctuation_init (u "a-c") self2
    /\ remove self1 (Str (u "b")) = Str []
    /\ remove self2 (Str (u "b")) = Str (u "b")
    /\ preserve self1 (Lines [u "b"])
       = Ok ([], [{| index := 0; mark := u "b"; position := A |}])
    /\ preserve self2 (Lines [u "b"]) = Ok ([u "b"], []).
Proof.
  exists {| _marks := u "a-c";
            _marks_re := mark_pattern
                           {| negate := false;
                              items := [Range (chr "a") (chr "c")] |} |}.
  exists {| _marks := u "ac-";
            _marks_re := mark_pattern (literal_set (u "ac-")) |}.
  split; [|split].
  - exists (u "a-c"). split; [|vm_compute; reflexivity].
    unfold join_set. vm_compute. apply Permutation_refl.
  - exists (u "ac-"). split; [|vm_compute; reflexivity].
    unfold join_set. vm_compute. apply perm_skip, perm_swap.
  - repeat split; vm_compute; reflexivity.
Qed.

(** ** Removing *)

Section Remove.
Variable cls : charset.
Hypothesis Hspace : in_set cls (chr " ") = false.

Lemma sub_from_mark_free fuel : forall s,
  length s < fuel ->
  mark_free cls (sub_from fuel (mark_pattern cls) (u " ") s).
Proof.
  induction fuel as [|fuel IH]; intros s Hlen; [lia|].
  cbn [sub_from]. destruct (re_match (mark_pattern cls) s) as [n|] eqn:Hm.
  - destruct (re_match_some _ _ Hm) as (g & rest & -> & <- & G).
    pose proof (is_group_nonempty G) as Hg.
    rewrite skipn_length_app. apply Forall_app. split.
    + constructor; [exact Hspace|constructor].
    + apply IH. rewrite length_app in Hlen.
      destruct g; [congruence|simpl in *; lia].
  - destruct s as [|c s]; [constructor|].
    constructor; [exact (re_match_none_mark _ _ _ Hm)|].
    apply IH. simpl in Hlen. lia.
Qed.

Lemma sub_from_id fuel repl : forall s,
  mark_free cls s -> sub_from fuel (mark_pattern cls) repl s = s.
Proof.
  induction fuel as [|fuel IH]; intros s Hs; [reflexivity|].
  cbn [sub_from]. rewrite (@re_match_mark_free cls s Hs).
  destruct s as [|c s]; [reflexivity|]. inversion Hs; subst.
  now rewrite IH.
Qed.

Lemma remove_aux_idem self s :
  _marks_re self = mark_pattern cls ->
  remove_aux self (remove_aux self s) = remove_aux self s.
Proof.
  intros Hre. unfold remove_aux, re_sub. rewrite Hre.
  rewrite (@sub_from_id _ (u " ") (strip _)).
  - apply strip_idem.
  - apply strip_forall. apply sub_from_mark_free. lia.
Qed.

End Remove.

(** Removing twice, when the space is no character of the set. *)
Lemma remove_twice value self t :
  Punctuation_init value self ->
  in_set (body (_marks_re self)) (chr " ") = false ->
  remove self (remove self t) = remove self t.
Proof.
  intros Hinit Hsp. apply Punctuation_init_shape in Hinit.
  destruct t as [s|l]; cbn [remove].
  - f_equal. now apply (@remove_aux_idem (body (_marks_re self))).
  - f_equal. rewrite map_map. apply map_ext. intros s.
    now apply (@remove_aux_idem (body (_marks_re self))).
Qed.

(** C6 as stated fails: with the space among the marks, two runs that
    touch leave two spaces, which the second pass takes for a run. *)
Lemma remove_idempotent_counterexample :
  exists self,
    Punctuation_init (u " !") self
    /\ remove self (Str (u "a!" ++ [9%N] ++ u "!b")) = Str (u "a  b")
    /\ remove self (Str (u "a  b")) = Str (u "a b").
Proof.
  exists {| _marks := u " !"; _marks_re := mark_pattern (literal_set (u " !")) |}.
  split; [|split; vm_compute; reflexivity].
  exists (u " !"). split; [|vm_compute; reflexivity].
  unfold join_set. vm_compute. apply Permutation_refl.
Qed.

(** ** The scans have fuel enough

    [finditer], [re.sub] and [str.split] are given as many rounds as the
    string has characters; more rounds change nothing. *)

Lemma finditer_from_fuel cls fuel : forall fuel' pos s,
  length s < fuel -> length s < fuel' ->
  finditer_from fuel (mark_pattern cls) pos s
  = finditer_from fuel' (mark_pattern cls) pos s.
Proof.
  induction fuel as [|fuel IH]; intros fuel' pos s H H'; [lia|].
  destruct fuel' as [|fuel']; [lia|]. cbn [finditer_from].
  destruct (re_match (mark_pattern cls) s) as [n|] eqn:Hm.
  - destruct (re_match_some _ _ Hm) as (g & rest & -> & <- & G).
    pose proof (is_group_nonempty G) as Hg.
    rewrite skipn_length_app. f_equal.
    rewrite length_app in *.
    apply IH; destruct g; try congruence; simpl in *; lia.
  - destruct s as [|c s]; [reflexivity|]. simpl in *. apply IH; lia.
Qed.

Lemma sub_from_fuel cls repl fuel : forall fuel' s,
  length s < fuel -> length s < fuel' ->
  sub_from fuel (mark_pattern cls) repl s
  = sub_from fuel' (mark_pattern cls) repl s.
Proof.
  induction fuel as [|fuel IH]; intros fuel' s H H'; [lia|].
  destruct fuel' as [|fuel']; [lia|]. cbn [sub_from].
  destruct (re_match (mark_pattern cls) s) as [n|] eqn:Hm.
  - destruct (re_match_some _ _ Hm) as (g & rest & -> & <- & G).
    pose proof (is_group_nonempty G) as Hg.
    rewrite skipn_length_app. f_equal.
    rewrite length_app in *.
    apply IH; destruct g; try congruence; simpl in *; lia.
  - destruct s as [|c s]; [reflexivity|]. simpl in *. f_equal. apply IH; lia.
Qed.

Lemma split_from_fuel sep fuel : forall fuel' s,
  sep <> [] ->
  length s <= fuel -> length s <= fuel' ->
  split_from fuel sep s = split_from fuel' sep s.
Proof.
  assert (Hnil : forall f, sep <> [] -> split_from f sep [] = [[]]).
  { intros [|f] Hs; [reflexivity|]. simpl.
    destruct sep; [congruence|reflexivity]. }
  induction fuel as [|fuel IH]; intros fuel' s Hs H H'.
  - destruct s; [|simpl in H; lia]. now rewrite !Hnil.
  - destruct fuel' as [|fuel'].
    + destruct s; [|simpl in H'; lia]. now rewrite !Hnil.
    + cbn [split_from].
      destruct (str_partition sep s) as [[a b]|] eqn:Hp; [|reflexivity].
      f_equal. apply str_partition_app in Hp. subst s.
      rewrite !length_app in *.
      apply IH; destruct sep; try congruence; simpl in *; lia.
Qed.

(** * Further properties *)

(** ** What [_preserve_line] returns *)

Lemma line_result_cases n t0 gts :
  (gts = [] /\ line_result n t0 gts = ([t0], []))
  \/ (exists g, t0 = [] /\ gts = [(g, [])]
        /\ line_result n t0 gts
           = ([], [{| index := n; mark := g; position := A |}]))
  \/ (exists g t1 gts', t0 = [] /\ gts = (g, t1) :: gts'
        /\ (t1 <> [] \/ gts' <> [])
        /\ line_result n t0 gts
           = (t0 :: map snd gts,
              {| index := n; mark := g; position := B |} :: rest_marks n gts'))
  \/ (t0 <> [] /\ gts <> []
      /\ line_result n t0 gts = (t0 :: map snd gts, rest_marks n gts)).
Proof.
  destruct gts as [|[g t1] gts'].
  { left. split; [reflexivity|]. now destruct t0. }
  right. destruct t0 as [|c t0].
  - destruct t1 as [|e x]; [destruct gts' as [|gt gts'']|].
    + left. now exists g.
    + right; left. exists g, [], (gt :: gts''). repeat split.
      right; discriminate.
    + right; left. exists g, (e :: x), gts'. repeat split.
      left; discriminate.
  - right; right. repeat split; try discriminate. now destruct t1, gts'.
Qed.

Lemma rest_marks_texts n gts : map mark (rest_marks n gts) = map fst gts.
Proof.
  induction gts as [|[g t] gts IH]; [reflexivity|].
  cbn [rest_marks map mark fst]. now rewrite IH.
Qed.

Lemma line_result_texts n t0 gts :
  map mark (snd (line_result n t0 gts)) = map fst gts.
Proof.
  destruct (line_result_cases n t0 gts)
    as [[-> ->]|[(g & -> & -> & ->)|[(g & t1 & gts' & -> & -> & _ & ->)
                                     |(_ & _ & ->)]]];
    cbn [snd map mark fst]; rewrite ?rest_marks_texts; reflexivity.
Qed.

Lemma weave_pieces gts : forall t0 ms,
  map mark ms = map fst gts ->
  weave (t0 :: map snd gts) ms = t0 ++ pieces gts.
Proof.
  induction gts as [|[g t] gts IH]; intros t0 ms H.
  - destruct ms; [|discriminate]. simpl. now rewrite app_nil_r.
  - destruct ms as [|m ms]; [discriminate|].
    cbn [map fst] in H. injection H as Hm H.
    change (weave (t0 :: map snd ((g, t) :: gts)) (m :: ms))
      with (t0 ++ mark m ++ weave (t :: map snd gts) ms).
    cbn [pieces]. rewrite Hm, (IH t ms H). reflexivity.
Qed.

Lemma pieces_length gts :
  length (pieces gts)
  = length (concat (map fst gts)) + length (concat (map snd gts)).
Proof.
  induction gts as [|[g t] gts IH]; [reflexivity|].
  cbn [pieces map fst snd concat]. rewrite !length_app, IH. lia.
Qed.

Lemma concat_filter_nonempty (l : list str) :
  concat (filter nonempty l) = concat l.
Proof.
  induction l as [|a l IH]; [reflexivity|].
  destruct a; simpl; now rewrite IH.
Qed.

Lemma Scanned_groups cls s t0 gts :
  Scanned cls s t0 gts ->
  Forall (fun g => exists rest, is_group cls g rest) (map fst gts).
Proof.
  induction 1 as [t _|t g rest t' gts _ _ G _ IH]; [constructor|].
  cbn [map fst]. constructor; [now exists rest|exact IH].
Qed.

Lemma rest_marks_placement n gts : forall before m after,
  rest_marks n gts = before ++ m :: after ->
  position m <> B /\ position m <> A /\ (position m = E -> after = []).
Proof.
  induction gts as [|[g t] gts IH]; intros before m after H.
  - destruct before; discriminate.
  - cbn [rest_marks] in H. destruct before as [|b before].
    + cbn [app] in H. injection H as <- <-. cbn [position].
      destruct gts as [|gt gts].
      * destruct t; repeat split; try discriminate; reflexivity.
      * repeat split; discriminate.
    + cbn [app] in H. injection H as _ H. exact (IH _ _ _ H).
Qed.

(** No line makes [str.split] meet an empty separator. *)
Lemma preserve_total value self t :
  Punctuation_init value self ->
  exists chunks marks, preserve self t = Ok (chunks, marks).
Proof.
  intros Hinit. apply Punctuation_init_shape in Hinit.
  destruct (preserve_loop_ok self Hinit (str2list t) 0) as (cs & ms & H).
  exists (filter nonempty cs), ms. unfold preserve. now rewrite H.
Qed.

(** X2: what [_preserve_line] returns for a line is either no chunk and
    the line itself as one mark tagged ['A'], or one chunk more than
    marks, and then the chunks with the marks put back between them, in
    order, are the line. *)
Theorem preserve_line_weave value self line n chunks marks :
  Punctuation_init value self ->
  _preserve_line self line n = Ok (chunks, marks) ->
  (chunks = []
   /\ marks = [{| index := n; mark := line; position := A |}])
  \/ (length chunks = S (length marks) /\ weave chunks marks = line).
Proof.
  intros Hinit H. apply Punctuation_init_shape in Hinit.
  destruct (preserve_line_cut self Hinit line n) as (t0 & gts & Sc & _ & Hl).
  rewrite Hl in H. injection H as H.
  pose proof (Scanned_line Sc) as Hline.
  pose proof (line_result_texts n t0 gts) as Ht. rewrite H in Ht.
  cbn [snd] in Ht.
  destruct (line_result_cases n t0 gts)
    as [[Hg R]|[(g & Ht0 & Hg & R)|[(g & t1 & gts' & Ht0 & Hg & _ & R)
                                    |(_ & _ & R)]]];
    rewrite R in H; injection H as <- <-.
  - right. subst gts. simpl in *. now rewrite app_nil_r in Hline.
  - left. subst. simpl. now rewrite !app_nil_r.
  - right. split.
    + cbn [length]. rewrite length_map.
      apply (f_equal (@length _)) in Ht. rewrite !length_map in Ht.
      cbn [length] in Ht. now rewrite Ht.
    + rewrite Hline. now apply weave_pieces.
  - right. split.
    + cbn [length]. rewrite length_map.
      apply (f_equal (@length _)) in Ht. rewrite !length_map in Ht.
      now rewrite Ht.
    + rewrite Hline. now apply weave_pieces.
Qed.

Lemma preserve_line_weave_witness :
  ([u "a"; u ""; u "b"] = []
   /\ [{| index := 0; mark := u ", "; position := I |};
       {| index := 0; mark := u ", "; position := I |}]
      = [{| index := 0; mark := u "a, , b"; position := A |}])
  \/ (length [u "a"; u ""; u "b"]
      = S (length [{| index := 0; mark := u ", "; position := I |};
                   {| index := 0; mark := u ", "; position := I |}])
      /\ weave [u "a"; u ""; u "b"]
           [{| index := 0; mark := u ", "; position := I |};
            {| index := 0; mark := u ", "; position := I |}]
         = u "a, , b").
Proof.
  apply (@preserve_line_weave default_marks default_punctuation).
  - exact default_punctuation_init.
  - vm_compute. reflexivity.
Defined.

(** ** What [preserve] returns *)

Lemma line_result_lengths n t0 gts :
  length (concat (fst (line_result n t0 gts)))
  + length (concat (map mark (snd (line_result n t0 gts))))
  = length (t0 ++ pieces gts).
Proof.
  rewrite line_result_texts.
  destruct (line_result_cases n t0 gts)
    as [[-> ->]|[(g & -> & -> & ->)|[(g & t1 & gts' & -> & -> & _ & ->)
                                     |(_ & _ & ->)]]];
    cbn [fst concat map snd pieces];
    rewrite ?length_app, ?pieces_length; cbn [length]; lia.
Qed.

Lemma preserve_loop_lengths self cls lines :
  _marks_re self = mark_pattern cls ->
  forall n cs ms,
    preserve_loop self n lines = Ok (cs, ms) ->
    length (concat cs) + length (concat (map mark ms))
    = length (concat lines).
Proof.
  intros Hre. induction lines as [|l lines IH]; intros n cs ms H.
  - injection H as <- <-. reflexivity.
  - cbn [preserve_loop] in H.
    destruct (preserve_line_cut self Hre l n) as (t0 & gts & Sc & _ & Hl).
    rewrite Hl in H. cbn [bind] in H.
    pose proof (line_result_lengths n t0 gts) as Hlen.
    rewrite <- (Scanned_line Sc) in Hlen.
    destruct (line_result n t0 gts) as [c1 m1].
    destruct (preserve_loop self (n + 1) lines) as [[c2 m2]|] eqn:Hr;
      [|discriminate].
    cbn [bind] in H. injection H as <- <-.
    specialize (IH _ _ _ Hr). cbn [fst snd] in Hlen.
    cbn [concat]. rewrite map_app, !concat_app, !length_app. lia.
Qed.

(** X3: [preserve] neither loses nor adds a character: the chunks and the
    mark texts together are as long as the lines together, on every
    input. *)
Theorem preserve_conserves_characters value self t chunks marks :
  Punctuation_init value self ->
  preserve self t = Ok (chunks, marks) ->
  length (concat chunks) + length (concat (map mark marks))
  = length (concat (str2list t)).
Proof.
  intros Hinit H. apply Punctuation_init_shape in Hinit.
  unfold preserve in H.
  destruct (preserve_loop self 0 (str2list t)) as [[cs ms]|] eqn:Hp;
    [|discriminate].
  cbn [bind] in H. injection H as <- <-.
  rewrite concat_filter_nonempty.
  exact (@preserve_loop_lengths self _ (str2list t) Hinit 0 cs ms Hp).
Qed.

Lemma preserve_conserves_characters_witness :
  length (concat [u "a"; u "b"])
  + length (concat (map mark
                      [{| index := 0; mark := u ", "; position := I |};
                       {| index := 0; mark := u ", "; position := I |};
                       {| index := 2; mark := u "?!"; position := A |}]))
  = length (concat (str2list (Lines [u "a, , b"; u ""; u "?!"]))).
Proof.
  apply (@preserve_conserves_characters default_marks default_punctuation).
  - exact default_punctuation_init.
  - vm_compute. reflexivity.
Defined.

Lemma in_line_order_app n (m1 m2 : list _mark_index) :
  Forall (fun m => index m = n) m1 ->
  Forall (fun m => (n <= index m)%Z) m2 ->
  in_line_order m2 ->
  in_line_order (m1 ++ m2).
Proof.
  intros H1 H2 Hs. unfold in_line_order in *.
  induction H1 as [|m m1 Hm H1 IH]; [exact Hs|].
  cbn [app]. constructor; [exact IH|].
  apply Forall_app. split.
  - eapply Forall_impl; [|exact H1]. cbv beta. intros; lia.
  - eapply Forall_impl; [|exact H2]. cbv beta. intros; lia.
Qed.

Lemma preserve_loop_order self cls lines :
  _marks_re self = mark_pattern cls ->
  forall n cs ms,
    preserve_loop self n lines = Ok (cs, ms) ->
    in_line_order ms
    /\ Forall (fun m => (n <= index m < n + Z.of_nat (length lines))%Z) ms.
Proof.
  intros Hre. induction lines as [|l lines IH]; intros n cs ms H.
  - injection H as <- <-. split; constructor.
  - cbn [preserve_loop] in H.
    destruct (preserve_line_cut self Hre l n) as (t0 & gts & _ & _ & Hl).
    rewrite Hl in H. cbn [bind] in H.
    pose proof (line_result_index n t0 gts) as Hi.
    destruct (line_result n t0 gts) as [c1 m1].
    destruct (preserve_loop self (n + 1) lines) as [[c2 m2]|] eqn:Hr;
      [|discriminate].
    cbn [bind] in H. injection H as <- <-.
    destruct (IH _ _ _ Hr) as [Hs Hb]. cbn [snd] in Hi. split.
    + apply (@in_line_order_app n); auto.
      eapply Forall_impl; [|exact Hb]. cbv beta. intros; lia.
    + cbn [length]. rewrite Nat2Z.inj_succ. apply Forall_app. split.
      * eapply Forall_impl; [|exact Hi]. cbv beta. intros; lia.
      * eapply Forall_impl; [|exact Hb]. cbv beta. intros; lia.
Qed.

(** X4: the marks [preserve] returns come in the order of their lines, and
    the line index of each is the index of a line of the input. *)
Theorem preserve_marks_in_line_order value self lines chunks marks :
  Punctuation_init value self ->
  preserve self (Lines lines) = Ok (chunks, marks) ->
  in_line_order marks
  /\ Forall (fun m => (0 <= index m < Z.of_nat (length lines))%Z) marks.
Proof.
  intros Hinit H. apply Punctuation_init_shape in Hinit.
  unfold preserve in H. cbn [str2list] in H.
  destruct (preserve_loop self 0 lines) as [[cs ms]|] eqn:Hp; [|discriminate].
  cbn [bind] in H. injection H as <- <-.
  exact (@preserve_loop_order self _ lines Hinit 0 cs ms Hp).
Qed.

Lemma preserve_marks_in_line_order_witness :
  in_line_order
    [{| index := 0; mark := u ", "; position := I |};
     {| index := 2; mark := u "?!"; position := A |}]
  /\ Forall (fun m => (0 <= index m
                       < Z.of_nat (length [u "a, b"; u ""; u "?!"]))%Z)
       [{| index := 0; mark := u ", "; position := I |};
        {| index := 2; mark := u "?!"; position := A |}].
Proof.
  apply (@preserve_marks_in_line_order default_marks default_punctuation
           [u "a, b"; u ""; u "?!"] [u "a"; u "b"]).
  - exact default_punctuation_init.
  - vm_compute. reflexivity.
Defined.

Lemma preserve_loop_texts self cls lines :
  _marks_re self = mark_pattern cls ->
  forall n cs ms,
    preserve_loop self n lines = Ok (cs, ms) ->
    Forall (fun m => exists rest, is_group cls (mark m) rest) ms.
Proof.
  intros Hre. induction lines as [|l lines IH]; intros n cs ms H.
  - injection H as <- <-. constructor.
  - cbn [preserve_loop] in H.
    destruct (preserve_line_cut self Hre l n) as (t0 & gts & Sc & _ & Hl).
    rewrite Hl in H. cbn [bind] in H.
    pose proof (Scanned_groups Sc) as Hg.
    rewrite <- (line_result_texts n t0 gts), Forall_map in Hg.
    destruct (line_result n t0 gts) as [c1 m1].
    destruct (preserve_loop self (n + 1) lines) as [[c2 m2]|] eqn:Hr;
      [|discriminate].
    cbn [bind] in H. injection H as <- <-.
    apply Forall_app. split; [exact Hg|exact (IH _ _ _ Hr)].
Qed.

(** The texts of the marks: whitespace and characters of the set. *)
Lemma mark_texts_of_set value self t chunks marks :
  Punctuation_init value self ->
  preserve self t = Ok (chunks, marks) ->
  Forall (fun m =>
            mark m <> []
            /\ Forall (fun c => isspace c
                                || in_set (body (_marks_re self)) c = true)
                 (mark m)
            /\ exists c, In c (mark m)
                         /\ in_set (body (_marks_re self)) c = true)
         marks.
Proof.
  intros Hinit H. apply Punctuation_init_shape in Hinit.
  unfold preserve in H.
  destruct (preserve_loop self 0 (str2list t)) as [[cs ms]|] eqn:Hp;
    [|discriminate].
  cbn [bind] in H. injection H as <- <-.
  pose proof (@preserve_loop_texts self _ (str2list t) Hinit 0 cs ms Hp) as Ht.
  eapply Forall_impl; [|exact Ht]. cbv beta. intros m [rest G].
  split; [exact (is_group_nonempty G)|].
  split; [exact (group_chars G)|exact (group_mark G)].
Qed.

(** X7: where the tags [_preserve_line] gives stand: only the first mark
    of a line can be tagged ['B'], only the last one ['E'], and a mark
    tagged ['A'] is the only mark of its line, which then has no chunk. *)
Theorem preserve_line_tag_places value self line n chunks marks before m after :
  Punctuation_init value self ->
  _preserve_line self line n = Ok (chunks, marks) ->
  marks = before ++ m :: after ->
  (position m = B -> before = [])
  /\ (position m = E -> after = [])
  /\ (position m = A -> before = [] /\ after = [] /\ chunks = []).
Proof.
  intros Hinit H Hsplit. apply Punctuation_init_shape in Hinit.
  destruct (preserve_line_cut self Hinit line n) as (t0 & gts & Sc & _ & Hl).
  rewrite Hl in H. injection H as H.
  destruct (line_result_cases n t0 gts)
    as [[Hg R]|[(g & Ht0 & Hg & R)|[(g & t1 & gts' & Ht0 & Hg & _ & R)
                                    |(_ & _ & R)]]];
    rewrite R in H; injection H as <- <-.
  - destruct before; discriminate.
  - destruct before as [|b [|b' before]]; try discriminate.
    injection Hsplit as <- <-. cbn [position].
    repeat split; auto; discriminate.
  - destruct before as [|b before].
    + injection Hsplit as <- <-. cbn [position].
      repeat split; auto; try discriminate.
    + injection Hsplit as _ Hsplit.
      destruct (rest_marks_placement _ _ _ _ _ Hsplit) as (HB & HA & HE).
      repeat split; auto; intros; contradiction.
  - destruct (rest_marks_placement _ _ _ _ _ Hsplit) as (HB & HA & HE).
    repeat split; auto; intros; contradiction.
Qed.

Lemma preserve_line_tag_places_witness :
  (position {| index := 0; mark := u "!"; position := E |} = B
   -> [{| index := 0; mark := u ", "; position := I |}] = [])
  /\ (position {| index := 0; mark := u "!"; position := E |} = E
      -> @nil _mark_index = [])
  /\ (position {| index := 0; mark := u "!"; position := E |} = A
      -> [{| index := 0; mark := u ", "; position := I |}] = []
         /\ @nil _mark_index = [] /\ [u "so"; u "what"; u ""] = []).
Proof.
  apply (@preserve_line_tag_places default_marks default_punctuation
           (u "so, what!") 0 [u "so"; u "what"; u ""]
           [{| index := 0; mark := u ", "; position := I |};
            {| index := 0; mark := u "!"; position := E |}]).
  - exact default_punctuation_init.
  - vm_compute. reflexivity.
  - reflexivity.
Defined.

(** ** What [restore] returns *)

Ltac restore_bind H r R :=
  match type of H with
  | bind ?c _ = Ok _ =>
      destruct c as [r|] eqn:R; cbn [bind] in H; [|discriminate];
      injection H as <-
  end.

Lemma restore_aux_characters marks : forall text n out,
  _restore_aux marks text n = Ok out ->
  length (concat out)
  = length (concat text) + length (concat (map mark marks)).
Proof.
  induction marks as [|m marks IH].
  { intros text n out H. injection H as <-. simpl. lia. }
  intros text; induction text as [|t0 text IHt]; intros n out H;
    rewrite restore_aux_cons in H; destruct (index m =? n)%Z.
  - destruct (position m); try discriminate.
    restore_bind H r R. apply IH in R.
    cbn [concat map] in *. rewrite ?length_app in *. lia.
  - discriminate.
  - destruct (position m).
    + apply IH in H. cbn [concat map] in *. rewrite ?length_app in *. lia.
    + restore_bind H r R. apply IH in R.
      cbn [concat map] in *. rewrite ?length_app in *. lia.
    + restore_bind H r R. apply IH in R.
      cbn [concat map] in *. rewrite ?length_app in *. lia.
    + destruct text as [|t1 rest]; [discriminate|]. apply IH in H.
      cbn [concat map] in *. rewrite ?length_app in *. lia.
  - restore_bind H r R. apply IHt in R.
    cbn [concat map] in *. rewrite ?length_app in *. lia.
Qed.

(** X8: [restore] neither loses nor adds a character: when it returns, its
    lines together are as long as the chunks and the mark texts
    together. *)
Theorem restore_conserves_characters t marks out :
  restore t marks = Ok out ->
  length (concat out)
  = length (concat (str2list t)) + length (concat (map mark marks)).
Proof. apply restore_aux_characters. Qed.

Lemma restore_conserves_characters_witness :
  length (concat [u "hello, my world!"])
  = length (concat (str2list (Lines [u "hello"; u "my world"])))
    + length (concat (map mark
                        [{| index := 0; mark := u ", "; position := I |};
                         {| index := 0; mark := u "!"; position := E |}])).
Proof.
  apply (@restore_conserves_characters (Lines [u "hello"; u "my world"])).
  vm_compute. reflexivity.
Defined.

Lemma restore_aux_lines marks : forall text n out,
  _restore_aux marks text n = Ok out ->
  length out + length (filter is_inner marks)
  = length text + length (filter is_alone marks).
Proof.
  induction marks as [|m marks IH].
  { intros text n out H. injection H as <-. simpl. lia. }
  intros text; induction text as [|t0 text IHt]; intros n out H;
    rewrite restore_aux_cons in H; destruct (index m =? n)%Z.
  - cbn [filter]. unfold is_inner at 1, is_alone at 1.
    destruct (position m); try discriminate.
    restore_bind H r R. apply IH in R. cbn [length] in *. lia.
  - discriminate.
  - cbn [filter]. unfold is_inner at 1, is_alone at 1.
    destruct (position m).
    + apply IH in H. cbn [length] in *. lia.
    + restore_bind H r R. apply IH in R. cbn [length] in *. lia.
    + restore_bind H r R. apply IH in R. cbn [length] in *. lia.
    + destruct text as [|t1 rest]; [discriminate|]. apply IH in H.
      cbn [length] in *. lia.
  - restore_bind H r R. apply IHt in R. cbn [length] in *. lia.
Qed.

(** X9: how many lines [restore] returns: as many as there are chunks,
    one more for every mark tagged ['A'] and one less for every mark tagged
    ['I']. *)
Theorem restore_line_count t marks out :
  restore t marks = Ok out ->
  length out + length (filter is_inner marks)
  = length (str2list t) + length (filter is_alone marks).
Proof. apply restore_aux_lines. Qed.

Lemma restore_line_count_witness :
  length [u "a, b"; u "..."; u "c"]
  + length (filter is_inner
              [{| index := 0; mark := u ", "; position := I |};
               {| index := 1; mark := u "..."; position := A |}])
  = length (str2list (Lines [u "a"; u "b"; u "c"]))
    + length (filter is_alone
                [{| index := 0; mark := u ", "; position := I |};
                 {| index := 1; mark := u "..."; position := A |}]).
Proof.
  apply (@restore_line_count (Lines [u "a"; u "b"; u "c"])).
  vm_compute. reflexivity.
Defined.

Lemma restore_aux_nonempty marks : forall text n out,
  _restore_aux marks text n = Ok out -> text <> [] -> out <> [].
Proof.
  induction marks as [|m marks IH].
  { intros text n out H. now injection H as <-. }
  intros text; induction text as [|t0 text IHt]; intros n out H Hne;
    [congruence|].
  rewrite restore_aux_cons in H. destruct (index m =? n)%Z.
  - destruct (position m).
    + apply IH in H; [exact H|discriminate].
    + restore_bind H r R. discriminate.
    + restore_bind H r R. discriminate.
    + destruct text as [|t1 rest]; [discriminate|].
      apply IH in H; [exact H|discriminate].
  - restore_bind H r R. discriminate.
Qed.

Lemma restore_aux_order marks : forall text n out,
  _restore_aux marks text n = Ok out ->
  in_line_order marks
  /\ Forall (fun m => (n <= index m < n + Z.of_nat (length out))%Z) marks.
Proof.
  assert (Hcons : forall m (ms : list _mark_index) n k len,
             in_line_order ms ->
             Forall (fun m => (k <= index m < k + Z.of_nat len)%Z) ms ->
             index m = n -> (n <= k)%Z ->
             in_line_order (m :: ms)).
  { intros m ms n k len Hs Hb Hm Hk. constructor; [exact Hs|].
    eapply Forall_impl; [|exact Hb]. cbv beta. intros; lia. }
  induction marks as [|m marks IH].
  { intros text n out _. split; constructor. }
  intros text; induction text as [|t0 text IHt]; intros n out H;
    rewrite restore_aux_cons in H;
    destruct (Z.eqb_spec (index m) n) as [Hm|Hm].
  - destruct (position m); try discriminate.
    restore_bind H r R. destruct (IH _ _ _ R) as [Hs Hb]. split.
    + apply (Hcons m marks n (n + 1)%Z (length r)); auto; lia.
    + cbn [length]. rewrite Nat2Z.inj_succ. constructor; [lia|].
      eapply Forall_impl; [|exact Hb]. cbv beta. intros; lia.
  - discriminate.
  - destruct (position m).
    + assert (Hne : out <> [])
        by (apply (@restore_aux_nonempty marks _ _ _ H); discriminate).
      destruct (IH _ _ _ H) as [Hs Hb]. split.
      * apply (Hcons m marks n n (length out)); auto; lia.
      * constructor; [|exact Hb].
        destruct out; [congruence|].
        cbn [length]. rewrite Nat2Z.inj_succ. lia.
    + restore_bind H r R. destruct (IH _ _ _ R) as [Hs Hb]. split.
      * apply (Hcons m marks n (n + 1)%Z (length r)); auto; lia.
      * cbn [length]. rewrite Nat2Z.inj_succ. constructor; [lia|].
        eapply Forall_impl; [|exact Hb]. cbv beta. intros; lia.
    + restore_bind H r R. destruct (IH _ _ _ R) as [Hs Hb]. split.
      * apply (Hcons m marks n (n + 1)%Z (length r)); auto; lia.
      * cbn [length]. rewrite Nat2Z.inj_succ. constructor; [lia|].
        eapply Forall_impl; [|exact Hb]. cbv beta. intros; lia.
    + destruct text as [|t1 rest]; [discriminate|].
      assert (Hne : out <> [])
        by (apply (@restore_aux_nonempty marks _ _ _ H); discriminate).
      destruct (IH _ _ _ H) as [Hs Hb]. split.
      * apply (Hcons m marks n n (length out)); auto; lia.
      * constructor; [|exact Hb].
        destruct out; [congruence|].
        cbn [length]. rewrite Nat2Z.inj_succ. lia.
  - restore_bind H r R. destruct (IHt _ _ R) as [Hs Hb]. split; [exact Hs|].
    cbn [length]. rewrite Nat2Z.inj_succ.
    eapply Forall_impl; [|exact Hb]. cbv beta. intros; lia.
Qed.

(** X10: [restore] returns only for marks that come in the order of their
    lines, and each mark then sits on a line it returns: its line index
    is no less than 0 and less than the number of lines returned. *)
Theorem restore_needs_line_order t marks out :
  restore t marks = Ok out ->
  in_line_order marks
  /\ Forall (fun m => (0 <= index m < Z.of_nat (length out))%Z) marks.
Proof.
  intros H. exact (@restore_aux_order marks (str2list t) 0 out H).
Qed.

Lemma restore_needs_line_order_witness :
  in_line_order
    [{| index := 0; mark := u ", "; position := I |};
     {| index := 1; mark := u "..."; position := A |}]
  /\ Forall (fun m => (0 <= index m
                       < Z.of_nat (length [u "a, b"; u "..."; u "c"]))%Z)
       [{| index := 0; mark := u ", "; position := I |};
        {| index := 1; mark := u "..."; position := A |}].
Proof.
  apply (@restore_needs_line_order (Lines [u "a"; u "b"; u "c"])).
  vm_compute. reflexivity.
Defined.

(** ** What [remove] returns *)

Section ScanSub.
Variable cls : charset.
Variable repl : str.

Local Abbreviation p := (mark_pattern cls).

(** [finditer] and [re.sub] cut a line at the same places. *)
Lemma scan_sub fuel : forall s pos,
  length s < fuel ->
  exists t0 gts,
    Scanned cls s t0 gts
    /\ finditer_from fuel p pos s = matches_of pos t0 gts
    /\ sub_from fuel p repl s = replaced repl t0 gts
    /\ (t0 = [] -> gts <> [] -> re_match p s <> None).
Proof.
  induction fuel as [|fuel IH]; intros s pos Hlen; [lia|].
  cbn [finditer_from sub_from].
  destruct (re_match p s) as [n|] eqn:Hm.
  - destruct (re_match_some _ _ Hm) as (g & rest & -> & <- & G).
    assert (Hg : g <> []) by exact (is_group_nonempty G).
    rewrite firstn_length_app, skipn_length_app.
    destruct (IH rest (pos + length g)) as (t' & gts & Sc & Hf & Hs & _).
    { rewrite length_app in Hlen. destruct g; [congruence|simpl in *; lia]. }
    exists [], ((g, t') :: gts). split; [|split; [|split]].
    + apply (@Scanned_match cls [] g rest t' gts); auto using no_space_end_nil.
      constructor.
    + simpl. rewrite Nat.add_0_r, Hf. reflexivity.
    + rewrite Hs. unfold replaced. cbn [map snd concat app].
      now rewrite <- app_assoc.
    + intros _ _. congruence.
  - destruct s as [|c s].
    + exists [], []. split; [constructor; constructor|].
      split; [reflexivity|]. split; [reflexivity|congruence].
    + destruct (IH s (pos + 1)) as (t0 & gts & Sc & Hf & Hs & Hne);
        [simpl in Hlen; lia|].
      exists (c :: t0), gts. split; [|split; [|split]].
      * pose proof (re_match_none_mark _ _ _ Hm) as Hc.
        destruct Sc as [t Ht|t g rest t' gts Ht He G Sc].
        -- constructor. now constructor.
        -- apply (@Scanned_match cls (c :: t) g rest t' gts); auto.
           ++ now constructor.
           ++ destruct t as [|d t].
              ** intros [|a [|b y]] e Hx; try discriminate.
                 injection Hx as <-.
                 destruct (re_match p (g ++ rest)) as [n|] eqn:Hn.
                 --- exact (re_match_none_space _ _ _ Hm Hn).
                 --- exfalso. now apply Hne.
              ** apply no_space_end_cons; [discriminate|exact He].
      * rewrite matches_of_cons. exact Hf.
      * rewrite Hs. reflexivity.
      * discriminate.
Qed.

End ScanSub.

Lemma str_join_replaced repl t0 gts :
  str_join repl (t0 :: map snd gts) = replaced repl t0 gts.
Proof.
  unfold replaced. revert t0.
  induction gts as [|[g t] gts IH]; intros t0.
  - simpl. now rewrite app_nil_r.
  - change (str_join repl (t0 :: map snd ((g, t) :: gts)))
      with (t0 ++ repl ++ str_join repl (t :: map snd gts)).
    rewrite IH. cbn [map snd concat]. now rewrite <- app_assoc.
Qed.

Lemma lstrip_length s : length (lstrip s) <= length s.
Proof.
  destruct (lstrip_suffix s) as [w Hw]. rewrite Hw at 2.
  rewrite length_app. lia.
Qed.

Lemma strip_length s : length (strip s) <= length s.
Proof.
  unfold strip, rstrip. rewrite length_rev.
  etransitivity; [apply lstrip_length|]. rewrite length_rev.
  apply lstrip_length.
Qed.

Lemma sub_from_length cls fuel : forall s,
  length (sub_from fuel (mark_pattern cls) (u " ") s) <= length s.
Proof.
  induction fuel as [|fuel IH]; intros s; [reflexivity|].
  cbn [sub_from]. destruct (re_match (mark_pattern cls) s) as [n|] eqn:Hm.
  - destruct (re_match_some _ _ Hm) as (g & rest & -> & <- & G).
    pose proof (is_group_nonempty G) as Hg.
    rewrite skipn_length_app, !length_app. specialize (IH rest).
    destruct g; [congruence|]. simpl. lia.
  - destruct s as [|c s]; [reflexivity|]. simpl. specialize (IH s). lia.
Qed.

(** What [remove] returns holds no character of the set when the space is
    none. *)
Lemma remove_result_clean value self t :
  Punctuation_init value self ->
  in_set (body (_marks_re self)) (chr " ") = false ->
  Forall (fun line =>
            Forall (fun c => in_set (body (_marks_re self)) c = false) line
            /\ strip line = line)
         (str2list (remove self t)).
Proof.
  intros Hinit Hsp. apply Punctuation_init_shape in Hinit.
  assert (Ha : forall s,
             Forall (fun c => in_set (body (_marks_re self)) c = false)
                    (remove_aux self s)
             /\ strip (remove_aux self s) = remove_aux self s).
  { intros s. unfold remove_aux. split; [|apply strip_idem].
    apply strip_forall. unfold re_sub. rewrite Hinit. cbn [body mark_pattern].
    apply (@sub_from_mark_free _ Hsp). lia. }
  destruct t as [s|l]; cbn [remove str2list].
  - constructor; [apply Ha|constructor].
  - apply Forall_map. apply Forall_forall. intros s _. apply Ha.
Qed.

(** [remove] and [_preserve_line] cut a line at the same places. *)
Lemma remove_is_joined_chunks value self line n chunks marks :
  Punctuation_init value self ->
  _preserve_line self line n = Ok (chunks, marks) ->
  remove self (Str line) = Str (strip (str_join (u " ") chunks)).
Proof.
  intros Hinit H. apply Punctuation_init_shape in Hinit.
  destruct (@scan_sub (body (_marks_re self)) (u " ") (S (length line)) line 0)
    as (t0 & gts & Sc & Hf & Hs & _); [lia|].
  cbn [remove]. f_equal. unfold remove_aux, re_sub.
  rewrite Hinit, Hs.
  assert (Hl : _preserve_line self line n = Ok (line_result n t0 gts)).
  { apply (@preserve_line_scanned self (body (_marks_re self))); [exact Sc|].
    unfold finditer. rewrite Hinit. exact Hf. }
  rewrite Hl in H. injection H as H.
  destruct (line_result_cases n t0 gts)
    as [[Hg R]|[(g & Ht0 & Hg & R)|[(g & t1 & gts' & Ht0 & Hg & _ & R)
                                    |(_ & _ & R)]]];
    rewrite R in H; injection H as <- _.
  - subst. now rewrite <- (str_join_replaced (u " ") t0 []).
  - subst. reflexivity.
  - now rewrite str_join_replaced.
  - now rewrite str_join_replaced.
Qed.

(** The replacement of a match is no longer than the match. *)
Lemma remove_aux_length value self line :
  Punctuation_init value self ->
  length (remove_aux self line) <= length line.
Proof.
  intros Hinit. apply Punctuation_init_shape in Hinit.
  unfold remove_aux, re_sub. rewrite Hinit.
  etransitivity; [apply strip_length|apply sub_from_length].
Qed.

(** Nothing is replaced in a text without a character of the set. *)
Lemma remove_mark_free value self line :
  Punctuation_init value self ->
  Forall (fun c => in_set (body (_marks_re self)) c = false) line ->
  remove self (Str line) = Str (strip line).
Proof.
  intros Hinit Hfree. apply Punctuation_init_shape in Hinit.
  cbn [remove]. f_equal. unfold remove_aux, re_sub. rewrite Hinit.
  now rewrite (@sub_from_id (body (_marks_re self)) (S (length line)) (u " ")).
Qed.

(** ** What the setter builds *)

(** X16: the marks go into the character set as they are: when the set
    comes out with the caret first, before marks that are no
    metacharacters, the pattern compiles to the complement, and a
    character is matched as a mark if and only if it is none of the marks
    behind the caret. *)
Theorem caret_first_negates j :
  plain_alphabet j = true ->
  exists self,
    marks_setter (chr "^" :: j) = Parsed self
    /\ forall c, in_set (body (_marks_re self)) c = true <-> ~ In c j.
Proof.
  unfold plain_alphabet. intros H. apply andb_true_iff in H as [Hne Hj].
  exists {| _marks := chr "^" :: j;
            _marks_re := mark_pattern {| negate := true;
                                         items := map Literal j |} |}.
  split.
  - unfold marks_setter, re_compile.
    rewrite (@tokenize_source (chr "^" :: j)
               (TChar (chr "^")
                  :: map TChar j ++ [TChar (chr "]"); TChar (chr "+");
                                     TEsc (chr "s"); TChar (chr "*")])).
    2:{ cbn [app tokenize]. change (chr "^" =? chr "\")%N with false.
        cbv iota.
        rewrite (@tokenize_plain j (u "]+\s*")
                   [TChar (chr "]"); TChar (chr "+");
                    TEsc (chr "s"); TChar (chr "*")] Hj eq_refl).
        reflexivity. }
    cbn [pbind]. rewrite !N.eqb_refl. cbn [andb is_tchar].
    rewrite N.eqb_refl.
    assert (Hn : j <> []) by (destruct j; [discriminate|discriminate]).
    rewrite (@parse_set_plain j false
               [TChar (chr "+"); TEsc (chr "s"); TChar (chr "*")] Hj
               (or_intror Hn)).
    reflexivity.
  - intros c. cbn [_marks_re body mark_pattern].
    change (in_set {| negate := true; items := map Literal j |} c)
      with (negb (in_set (literal_set j) c)).
    rewrite negb_true_iff, <- not_true_iff_false, in_literal_set. reflexivity.
Qed.

Lemma caret_first_negates_witness :
  exists self,
    marks_setter (chr "^" :: u "a.") = Parsed self
    /\ forall c, in_set (body (_marks_re self)) c = true <-> ~ In c (u "a.").
Proof.
  apply (@caret_first_negates (u "a.")). reflexivity.
Defined.

(** ** Texts put together *)

Lemma split_marks_shift k marks : forall line,
  split_marks (map (shift_index k) marks) line = split_marks marks line.
Proof.
  induction marks as [|m marks IH]; intros line; [reflexivity|].
  cbn [map split_marks shift_index mark].
  destruct (str_split line (mark m)) as [split|]; [|reflexivity].
  cbn [bind]. now rewrite IH.
Qed.

Lemma preserve_line_shift self line n k :
  _preserve_line self line (n + k)
  = ('(chunks, marks) <- _preserve_line self line n ;;
     Ok (chunks, map (shift_index k) marks)).
Proof.
  unfold _preserve_line.
  destruct (finditer (_marks_re self) line) as [|m0 others]; [reflexivity|].
  destruct ((length (m0 :: others) =? 1)%nat && str_eqb (group m0) line);
    [reflexivity|].
  set (ms := map (fun m => {| index := n; mark := group m;
                              position := position_of (m0 :: others) line m |})
                 (m0 :: others)).
  assert (Hms : map (fun m => {| index := n + k; mark := group m;
                                 position := position_of (m0 :: others) line m |})
                    (m0 :: others)
                = map (shift_index k) ms).
  { unfold ms. rewrite map_map. reflexivity. }
  rewrite Hms, split_marks_shift.
  destruct (split_marks ms line); reflexivity.
Qed.

Lemma preserve_loop_shift self k lines : forall n,
  preserve_loop self (n + k) lines
  = ('(chunks, marks) <- preserve_loop self n lines ;;
     Ok (chunks, map (shift_index k) marks)).
Proof.
  induction lines as [|l lines IH]; intros n; [reflexivity|].
  cbn [preserve_loop]. rewrite preserve_line_shift.
  replace (n + k + 1)%Z with (n + 1 + k)%Z by lia. rewrite IH.
  destruct (_preserve_line self l n) as [[c1 m1]|]; [|reflexivity].
  cbn [bind].
  destruct (preserve_loop self (n + 1) lines) as [[c2 m2]|]; [|reflexivity].
  cbn [bind]. now rewrite map_app.
Qed.

(** X17: [preserve] works line by line: of two texts put one behind the
    other it returns the chunks of the first followed by those of the
    second, and the marks of the first followed by those of the second
    with the number of lines of the first added to their line indexes. *)
Theorem preserve_app self lines1 lines2 chunks1 marks1 chunks2 marks2 :
  preserve self (Lines lines1) = Ok (chunks1, marks1) ->
  preserve self (Lines lines2) = Ok (chunks2, marks2) ->
  preserve self (Lines (lines1 ++ lines2))
  = Ok (chunks1 ++ chunks2,
        marks1 ++ map (shift_index (Z.of_nat (length lines1))) marks2).
Proof.
  unfold preserve. cbn [str2list]. intros H1 H2.
  destruct (preserve_loop self 0 lines1) as [[c1 m1]|] eqn:Hp1;
    [|discriminate].
  destruct (preserve_loop self 0 lines2) as [[c2 m2]|] eqn:Hp2;
    [|discriminate].
  cbn [bind] in *. injection H1 as <- <-. injection H2 as <- <-.
  rewrite (@preserve_loop_app self lines1 0 lines2 c1 m1 c2
             (map (shift_index (Z.of_nat (length lines1))) m2) Hp1).
  - cbn [bind]. now rewrite filter_app.
  - rewrite preserve_loop_shift, Hp2. reflexivity.
Qed.

Lemma preserve_app_witness :
  preserve default_punctuation (Lines ([u "a, b"] ++ [u "c!"; u "..."]))
  = Ok ([u "a"; u "b"] ++ [u "c"],
        [{| index := 0; mark := u ", "; position := I |}]
          ++ map (shift_index (Z.of_nat (length [u "a, b"])))
               [{| index := 0; mark := u "!"; position := E |};
                {| index := 1; mark := u "..."; position := A |}]).
Proof.
  apply (@preserve_app default_punctuation); vm_compute; reflexivity.
Defined.

(** ** Edges of [restore] *)

Lemma restore_aux_no_chunks marks : forall k out,
  _restore_aux marks [] (Z.of_nat k) = Ok out ->
  out = map mark marks
  /\ Forall (fun m => position m = A) marks
  /\ map index marks = map Z.of_nat (seq k (length marks)).
Proof.
  induction marks as [|m marks IH]; intros k out H.
  { injection H as <-. repeat split. constructor. }
  rewrite restore_aux_cons in H.
  destruct (Z.eqb_spec (index m) (Z.of_nat k)) as [Hm|Hm]; [|discriminate].
  destruct (position m) eqn:Hpos; try discriminate.
  replace (Z.of_nat k + 1)%Z with (Z.of_nat (S k)) in H by lia.
  restore_bind H r R. destruct (IH _ _ R) as (-> & Hall & Hidx).
  repeat split.
  - constructor; [exact Hpos|exact Hall].
  - cbn [map length seq]. now rewrite Hm, Hidx.
Qed.

(** X18: without chunks [restore] returns only when every mark is tagged
    ['A'] and the marks are those of the lines 0, 1, 2, ... in turn; it
    then returns the texts of the marks, one line each. *)
Theorem restore_no_chunks marks out :
  restore (Lines []) marks = Ok out ->
  out = map mark marks
  /\ Forall (fun m => position m = A) marks
  /\ map index marks = map Z.of_nat (seq 0 (length marks)).
Proof. exact (@restore_aux_no_chunks marks 0 out). Qed.

Lemma restore_no_chunks_witness :
  [u "..."; u "?!"]
  = map mark [{| index := 0; mark := u "..."; position := A |};
              {| index := 1; mark := u "?!"; position := A |}]
  /\ Forall (fun m => position m = A)
       [{| index := 0; mark := u "..."; position := A |};
        {| index := 1; mark := u "?!"; position := A |}]
  /\ map index [{| index := 0; mark := u "..."; position := A |};
                {| index := 1; mark := u "?!"; position := A |}]
     = map Z.of_nat
         (seq 0 (length [{| index := 0; mark := u "..."; position := A |};
                         {| index := 1; mark := u "?!"; position := A |}])).
Proof.
  apply (@restore_no_chunks
           [{| index := 0; mark := u "..."; position := A |};
            {| index := 1; mark := u "?!"; position := A |}]).
  reflexivity.
Defined.

Lemma restore_aux_leading marks text pre : forall n,
  Forall (fun m => (n + Z.of_nat (length pre) <= index m)%Z) marks ->
  _restore_aux marks (pre ++ text) n
  = (r <- _restore_aux marks text (n + Z.of_nat (length pre))%Z ;;
     Ok (pre ++ r)).
Proof.
  induction pre as [|c pre IH]; intros n H.
  - cbn [app length]. change (Z.of_nat 0) with 0%Z. rewrite Z.add_0_r.
    now destruct (_restore_aux marks text n).
  - cbn [app]. rewrite restore_emit.
    + rewrite IH.
      * replace (n + 1 + Z.of_nat (length pre))%Z
          with (n + Z.of_nat (length (c :: pre)))%Z
          by (cbn [length]; rewrite Nat2Z.inj_succ; lia).
        now destruct (_restore_aux marks text _).
      * eapply Forall_impl; [|exact H]. intros m Hm; cbv beta in *.
        cbn [length] in Hm. rewrite Nat2Z.inj_succ in Hm. lia.
    + eapply Forall_impl; [|exact H]. intros m Hm; cbv beta in *.
      cbn [length] in Hm. rewrite Nat2Z.inj_succ in Hm. lia.
Qed.

(** X19: the chunks in front of the line of the first mark go through
    [restore] as they are: when every mark has a line index of [k] at
    least, the first [k] chunks are the first [k] lines returned, and the
    walk goes on behind them with the counter at [k]. *)
Theorem restore_leading_chunks marks pre text :
  Forall (fun m => (Z.of_nat (length pre) <= index m)%Z) marks ->
  restore (Lines (pre ++ text)) marks
  = (r <- _restore_aux marks text (Z.of_nat (length pre)) ;;
     Ok (pre ++ r)).
Proof.
  intros H. unfold restore. cbn [str2list].
  now rewrite (@restore_aux_leading marks text pre 0%Z H).
Qed.

Lemma restore_leading_chunks_witness :
  restore (Lines ([u "a"; u "b"] ++ [u "c"; u "d"]))
    [{| index := 2; mark := u ", "; position := I |}]
  = (r <- _restore_aux [{| index := 2; mark := u ", "; position := I |}]
            [u "c"; u "d"] (Z.of_nat (length [u "a"; u "b"])) ;;
     Ok ([u "a"; u "b"] ++ r)).
Proof.
  apply (@restore_leading_chunks
           [{| index := 2; mark := u ", "; position := I |}]
           [u "a"; u "b"] [u "c"; u "d"]).
  repeat constructor. simpl. lia.
Defined.

(** ** An alphabet that does not compile *)

Lemma tokenize_behind_marks n : forall j,
  length j <= n ->
  exists ts, tokenize (j ++ u "]+\s*") = Parsed ts.
Proof.
  induction n as [|n IH]; intros j Hn.
  - destruct j; [|simpl in Hn; lia]. eexists. reflexivity.
  - destruct j as [|c j]; [eexists; reflexivity|].
    cbn [app tokenize]. destruct (c =? chr "\")%N.
    + destruct j as [|d j].
      * eexists. reflexivity.
      * destruct (IH j) as [ts Hts]; [simpl in Hn; lia|].
        cbn [app]. rewrite Hts. eexists. reflexivity.
    + destruct (IH j) as [ts Hts]; [simpl in Hn; lia|].
      rewrite Hts. eexists. reflexivity.
Qed.

Lemma parse_bad_range a b ts j : forall nb,
  forallb plain_mark j = true ->
  plain_mark a = true -> plain_mark b = true -> (b < a)%N ->
  parse_set_items nb
    (map TChar j ++ TChar a :: TChar (chr "-") :: TChar b :: ts)
  = ReError.
Proof.
  intros nb Hj Ha Hb Hlt. revert nb.
  apply plain_mark_spec in Ha as (_ & Ha1 & _ & Ha2).
  apply plain_mark_spec in Hb as (_ & Hb1 & _ & _).
  induction j as [|c j IH]; intros nb.
  - cbn [map app]. rewrite parse_set_items_cons. cbn [is_tchar].
    rewrite Ha1, andb_false_r. cbn [token_code pbind].
    rewrite N.eqb_refl, Hb1. cbn [token_code pbind].
    apply N.ltb_lt in Hlt. now rewrite Hlt.
  - cbn [forallb] in Hj. apply andb_true_iff in Hj as [Hc Hj].
    apply plain_mark_spec in Hc as (_ & Hc & _ & _).
    cbn [map app]. rewrite parse_set_items_cons. cbn [is_tchar].
    rewrite Hc, andb_false_r. cbn [token_code pbind].
    specialize (IH Hj true).
    destruct j as [|d j].
    + cbn [map app] in *. cbn [is_tchar]. rewrite Ha2.
      rewrite IH. reflexivity.
    + cbn [forallb] in Hj. apply andb_true_iff in Hj as [Hd _].
      apply plain_mark_spec in Hd as (_ & _ & _ & Hd).
      cbn [map app] in *. cbn [is_tchar]. rewrite Hd.
      rewrite IH. reflexivity.
Qed.

(** X20: when the set comes out with a hyphen between a mark and a mark of
    a smaller code point, behind marks that are no metacharacters, the
    pattern is a bad character range: [re.compile] raises and no processor
    is built, whatever follows. *)
Theorem hyphen_bad_range j a b rest :
  forallb plain_mark j = true ->
  plain_mark a = true -> plain_mark b = true -> (b < a)%N ->
  marks_setter (j ++ a :: chr "-" :: b :: rest) = ReError.
Proof.
  intros Hj Ha Hb Hlt.
  destruct (@tokenize_behind_marks (length rest) rest (le_n _)) as [ts Hts].
  assert (Hb' := Hb). apply plain_mark_spec in Hb' as (Hb0 & _).
  assert (Ha' := Ha). apply plain_mark_spec in Ha' as (Ha0 & _ & Ha3 & _).
  assert (Htok : tokenize ((j ++ a :: chr "-" :: b :: rest) ++ u "]+\s*")
                 = Parsed (map TChar j
                             ++ TChar a :: TChar (chr "-") :: TChar b :: ts)).
  { rewrite <- app_assoc. apply tokenize_plain; [exact Hj|].
    cbn [app tokenize]. rewrite Ha0.
    change (chr "-" =? chr "\")%N with false. cbv iota.
    rewrite Hb0, Hts. reflexivity. }
  unfold marks_setter, re_compile.
  rewrite (tokenize_source _ Htok). cbn [pbind].
  rewrite !N.eqb_refl. cbn [andb].
  assert (Hfirst :
            match map TChar j ++ TChar a :: TChar (chr "-") :: TChar b :: ts with
            | [] => (false, map TChar j
                              ++ TChar a :: TChar (chr "-") :: TChar b :: ts)
            | t :: r =>
                if is_tchar t "^" then (true, r)
                else (false, map TChar j
                               ++ TChar a :: TChar (chr "-") :: TChar b :: ts)
            end
            = (false, map TChar j
                        ++ TChar a :: TChar (chr "-") :: TChar b :: ts)).
  { destruct j as [|c j]; cbn [map app is_tchar].
    - now rewrite Ha3.
    - cbn [forallb] in Hj. apply andb_true_iff in Hj as [Hc _].
      apply plain_mark_spec in Hc as (_ & _ & Hc & _). now rewrite Hc. }
  rewrite Hfirst.
  rewrite (@parse_bad_range a b ts j false Hj Ha Hb Hlt). reflexivity.
Qed.

Lemma hyphen_bad_range_witness :
  marks_setter (u ".," ++ chr "z" :: chr "-" :: chr "a" :: u "\]!") = ReError.
Proof.
  apply (@hyphen_bad_range (u ".,") (chr "z") (chr "a") (u "\]!"));
    reflexivity.
Defined.

(** * The processors of alphabets without metacharacters *)

(** ** The processor of such an alphabet *)

Lemma plain_setter value joined :
  plain_alphabet value = true ->
  join_set value joined ->
  marks_setter joined = Parsed (plain_processor joined)
  /\ Punctuation_init value (plain_processor joined).
Proof.
  intros Hp Hj.
  pose proof (@marks_setter_plain joined (@join_set_plain value joined Hj Hp))
    as Hs.
  split; [exact Hs|]. exists joined. now split.
Qed.

Lemma plain_marks value joined c :
  join_set value joined ->
  in_set (body (_marks_re (plain_processor joined))) c = true <-> In c value.
Proof.
  intros Hj. cbn [plain_processor _marks_re mark_pattern body].
  rewrite in_literal_set. now apply join_set_In.
Qed.

Lemma plain_mark_free value joined t :
  join_set value joined ->
  mark_free (body (_marks_re (plain_processor joined))) t
  <-> without_marks value t.
Proof.
  intros Hj. unfold mark_free, without_marks. rewrite Forall_forall.
  split; intros H c Hc.
  - intros Hv. apply (plain_marks c Hj) in Hv. rewrite (H c Hc) in Hv.
    discriminate.
  - destruct (in_set _ c) eqn:E; [|reflexivity].
    exfalso. apply (H c Hc). now apply (plain_marks c Hj).
Qed.

Lemma not_In_b (c : char) (l : str) :
  existsb (N.eqb c) l = false -> ~ In c l.
Proof.
  intros H Hin. assert (existsb (N.eqb c) l = true); [|congruence].
  apply existsb_exists. exists c. split; [exact Hin|apply N.eqb_refl].
Qed.

Lemma without_marks_b (value t : str) :
  forallb (fun c => negb (existsb (N.eqb c) value)) t = true ->
  without_marks value t.
Proof.
  intros H c Hc. rewrite forallb_forall in H. apply not_In_b.
  apply negb_true_iff. now apply H.
Qed.

Lemma default_join : join_set default_marks _DEFAULT_MARKS.
Proof. unfold join_set. vm_compute nodup. apply Permutation_refl. Qed.

(** A closing bracket among the marks can end the set early: the source
    then has another form, which Python compiles and which is left out
    here. *)
Lemma closing_bracket_leaves_shape : marks_setter (u "a]?|") = Unmodelled.
Proof. vm_compute. reflexivity. Qed.

(** ** The round trip *)

(** C1 (amended): for every alphabet that is not empty and holds none of
    the characters backslash, closing bracket, caret and hyphen, whatever
    the order in which the set of its characters is joined, the processor
    is built and, for every sequence of lines none of which is empty and
    in none of which two punctuation runs are adjacent, [restore] applied
    to the chunks and marks returned by [preserve] yields exactly the
    lines, in the same order. *)
Theorem restore_preserve_roundtrip value joined lines :
  plain_alphabet value = true ->
  join_set value joined ->
  Forall (fun l => restorable (plain_processor joined) l = true) lines ->
  marks_setter joined = Parsed (plain_processor joined)
  /\ exists chunks marks,
       preserve (plain_processor joined) (Lines lines) = Ok (chunks, marks)
       /\ restore (Lines chunks) marks = Ok lines.
Proof.
  intros Hp Hj HL. destruct (plain_setter Hp Hj) as [Hs Hinit].
  split; [exact Hs|]. exact (@roundtrip_of_restorable value (plain_processor joined) lines
           Hinit HL).
Qed.

Lemma restore_preserve_roundtrip_witness :
  marks_setter _DEFAULT_MARKS = Parsed (plain_processor _DEFAULT_MARKS)
  /\ exists chunks marks,
       preserve (plain_processor _DEFAULT_MARKS)
         (Lines [u "hello, my world!"; u "..."; u "plain"; u "?so, what"])
       = Ok (chunks, marks)
       /\ restore (Lines chunks) marks
          = Ok [u "hello, my world!"; u "..."; u "plain"; u "?so, what"].
Proof.
  apply (@restore_preserve_roundtrip default_marks _DEFAULT_MARKS).
  - reflexivity.
  - exact default_join.
  - repeat constructor.
Defined.

(** ** Lines without marks *)

(** C3 (amended): the setter raises [re.error] on the empty string, so no
    processor has the empty alphabet; for every alphabet that is not empty
    and holds none of the characters backslash, closing bracket, caret and
    hyphen, whatever the order of the set, the processor is built and, on
    lines that hold none of the characters of the alphabet, [preserve]
    returns the lines that are not empty as chunks, and no mark. *)
Theorem preserve_without_marks value joined lines :
  join_set value joined ->
  (value = [] -> marks_setter joined = ReError)
  /\ (plain_alphabet value = true ->
      Forall (without_marks value) lines ->
      marks_setter joined = Parsed (plain_processor joined)
      /\ preserve (plain_processor joined) (Lines lines)
         = Ok (filter nonempty lines, [])).
Proof.
  intros Hj. split.
  - intros ->. unfold join_set in Hj. cbn [nodup] in Hj.
    apply Permutation_sym, Permutation_nil in Hj. subst joined. reflexivity.
  - intros Hp Hl. destruct (plain_setter Hp Hj) as [Hs Hinit].
    split; [exact Hs|].
    apply (@preserve_mark_free_lines value (plain_processor joined) lines Hinit).
    eapply Forall_impl; [|exact Hl].
    intros l. apply (plain_mark_free l Hj).
Qed.

Lemma preserve_without_marks_witness :
  marks_setter _DEFAULT_MARKS = Parsed (plain_processor _DEFAULT_MARKS)
  /\ preserve (plain_processor _DEFAULT_MARKS)
       (Lines [u "abc"; u ""; u " d e"])
     = Ok ([u "abc"; u " d e"], []).
Proof.
  apply (proj2 (@preserve_without_marks default_marks _DEFAULT_MARKS
                  [u "abc"; u ""; u " d e"] default_join)).
  - reflexivity.
  - repeat (constructor; [apply without_marks_b; reflexivity|]).
    constructor.
Defined.

(** ** Removing twice *)

(** C6 (amended): for every alphabet that is not empty and holds neither
    the space nor any of the characters backslash, closing bracket, caret
    and hyphen, whatever the order of the set, the processor is built and,
    for every text, a single line or a sequence of lines, removing twice
    gives what removing once gives. *)
Theorem remove_idempotent value joined t :
  plain_alphabet value = true ->
  ~ In (chr " ") value ->
  join_set value joined ->
  marks_setter joined = Parsed (plain_processor joined)
  /\ remove (plain_processor joined) (remove (plain_processor joined) t)
     = remove (plain_processor joined) t.
Proof.
  intros Hp Hsp Hj. destruct (plain_setter Hp Hj) as [Hs Hinit].
  split; [exact Hs|].
  apply (@remove_twice value (plain_processor joined) t Hinit).
  destruct (in_set _ (chr " ")) eqn:E; [|reflexivity].
  exfalso. apply Hsp. now apply (plain_marks (chr " ") Hj).
Qed.

Lemma remove_idempotent_witness :
  marks_setter _DEFAULT_MARKS = Parsed (plain_processor _DEFAULT_MARKS)
  /\ remove (plain_processor _DEFAULT_MARKS)
       (remove (plain_processor _DEFAULT_MARKS)
          (Lines [u "hello, my world!"; u " ... "]))
     = remove (plain_processor _DEFAULT_MARKS)
         (Lines [u "hello, my world!"; u " ... "]).
Proof.
  apply (@remove_idempotent default_marks _DEFAULT_MARKS).
  - reflexivity.
  - apply not_In_b. reflexivity.
  - exact default_join.
Defined.

(** ** The chunks of a line *)

Lemma startswith_app_l (a b g : str) :
  startswith a g = true -> startswith (a ++ b) g = true.
Proof.
  revert a. induction g as [|p g IH]; intros a H.
  { destruct a; [destruct b|]; reflexivity. }
  destruct a as [|c a]; [discriminate|].
  simpl in *. apply andb_true_iff in H as [Hc H].
  rewrite Hc. now apply IH.
Qed.

Lemma endswith_app_l (pre s g : str) :
  endswith s g = true -> endswith (pre ++ s) g = true.
Proof.
  unfold endswith. intros H. rewrite rev_app_distr.
  now apply startswith_app_l.
Qed.

Lemma filter_split (T : Type) (f : T -> bool) (l : list T) :
  forall before c after,
    filter f l = before ++ c :: after ->
    exists l1 l2,
      l = l1 ++ c :: l2 /\ before = filter f l1 /\ after = filter f l2.
Proof.
  induction l as [|a l IH]; intros before c after H.
  - destruct before; discriminate.
  - cbn [filter] in H. destruct (f a) eqn:Ha.
    + destruct before as [|b before].
      * injection H as -> H. exists [], l. repeat split. now symmetry.
      * injection H as -> H.
        destruct (IH _ _ _ H) as (l1 & l2 & -> & -> & ->).
        exists (b :: l1), l2. repeat split. cbn [filter]. now rewrite Ha.
    + destruct (IH _ _ _ H) as (l1 & l2 & -> & -> & ->).
      exists (a :: l1), l2. repeat split. cbn [filter]. now rewrite Ha.
Qed.

Lemma filter_concat (T : Type) (f : T -> bool) (ll : list (list T)) :
  filter f (concat ll) = concat (map (filter f) ll).
Proof.
  induction ll as [|l ll IH]; [reflexivity|].
  cbn [concat map]. now rewrite filter_app, IH.
Qed.

Section Places.
Variable cls : charset.

(** Where the texts around the matches stand in the line. *)
Lemma Scanned_places s t0 gts :
  Scanned cls s t0 gts ->
  forall before c after,
    t0 :: map snd gts = before ++ c :: after ->
    mark_free cls c
    /\ (before <> [] -> no_space_start c)
    /\ (after <> [] -> no_space_end c)
    /\ (before = [] -> startswith s c = true)
    /\ (after = [] -> endswith s c = true).
Proof.
  induction 1 as [t Ht|t g rest t' gts Ht He G Sc IH];
    intros before c after Hsplit.
  - destruct before as [|b before].
    + injection Hsplit as <- <-. split; [exact Ht|].
      split; [congruence|]. split; [congruence|].
      split; intros _.
      * rewrite <- (app_nil_r t) at 1. apply startswith_app.
      * apply (endswith_app [] t).
    + injection Hsplit as _ Hsplit. destruct before; discriminate.
  - cbn [map snd] in Hsplit. destruct before as [|b before].
    + injection Hsplit as <- <-. split; [exact Ht|].
      split; [congruence|]. split; [intros _; exact He|].
      split; [|discriminate].
      intros _. apply startswith_app.
    + injection Hsplit as <- Hsplit.
      destruct (IH _ _ _ Hsplit) as (Hm & Hs & He' & Hfirst & Hlast).
      split; [exact Hm|]. split; [|split; [exact He'|split; [discriminate|]]].
      * intros _. destruct before as [|b before].
        -- injection Hsplit as <- _. intros d x Hx.
           apply (@group_greedy cls g rest G d (x ++ pieces gts)).
           rewrite (Scanned_line Sc), Hx. reflexivity.
        -- apply Hs. discriminate.
      * intros Ha. rewrite app_assoc. apply endswith_app_l. now apply Hlast.
Qed.

(** The chunks kept of a line cut into [t0 g1 t1 ... gk tk]. *)
Lemma line_chunks_cut value n line t0 gts :
  (forall t, mark_free cls t -> without_marks value t) ->
  Scanned cls line t0 gts ->
  line_chunks value line (filter nonempty (fst (line_result n t0 gts))).
Proof.
  intros Hfree Sc.
  assert (Hraw : fst (line_result n t0 gts) = []
                 \/ fst (line_result n t0 gts) = t0 :: map snd gts).
  { destruct (line_result_cases n t0 gts)
      as [[-> R]|[(g & _ & _ & R)|[(g & t1 & gts' & _ & _ & _ & R)
                                  |(_ & _ & R)]]];
      rewrite R; cbn [fst map]; auto. }
  destruct Hraw as [-> | ->].
  { split; [constructor|]. intros before c after H.
    destruct before; discriminate. }
  split.
  - apply Forall_forall. intros c Hc. apply filter_In in Hc as [Hin Hne].
    split; [now destruct c|].
    apply in_split in Hin as (l1 & l2 & Hin).
    apply Hfree. exact (proj1 (Scanned_places Sc _ _ _ Hin)).
  - intros before c after H.
    destruct (filter_split _ _ _ _ _ H) as (l1 & l2 & Hin & -> & ->).
    destruct (Scanned_places Sc _ _ _ Hin) as (_ & Hs & He & Hfirst & Hlast).
    split.
    + destruct l1 as [|a l1].
      * right. split; [reflexivity|]. now apply Hfirst.
      * left. apply lstrip_fixed. apply Hs. discriminate.
    + destruct l2 as [|a l2].
      * right. split; [reflexivity|]. now apply Hlast.
      * left. apply rstrip_fixed. apply He. discriminate.
Qed.

End Places.

(** The chunks [preserve] collects are those of the lines, line after
    line. *)
Lemma preserve_loop_per_line self lines : forall n cs ms,
  preserve_loop self n lines = Ok (cs, ms) ->
  exists raws,
    cs = concat raws
    /\ Forall2 (fun line raw =>
                  exists k ms1, _preserve_line self line k = Ok (raw, ms1))
         lines raws.
Proof.
  induction lines as [|l lines IH]; intros n cs ms H.
  - injection H as <- <-. exists []. split; [reflexivity|constructor].
  - cbn [preserve_loop] in H.
    destruct (_preserve_line self l n) as [[c1 m1]|] eqn:Hl; [|discriminate].
    cbn [bind] in H.
    destruct (preserve_loop self (n + 1) lines) as [[c2 m2]|] eqn:Hr;
      [|discriminate].
    cbn [bind] in H. injection H as <- <-.
    destruct (IH _ _ _ Hr) as (raws & -> & Hall).
    exists (c1 :: raws). split; [reflexivity|].
    constructor; [now exists n, m1|exact Hall].
Qed.

(** C7 (amended): for every alphabet that is not empty and holds none of
    the characters backslash, closing bracket, caret and hyphen, whatever
    the order of the set, the processor is built and the chunks [preserve]
    returns are, line after line, the chunks of each line that are not
    empty; every chunk is a non-empty string without any character of the
    alphabet; among the chunks of one line only the first may start with
    whitespace, and then that line starts with it, and only the last may
    end with whitespace, and then that line ends with it. *)
Theorem chunks_postcondition value joined t chunks marks :
  plain_alphabet value = true ->
  join_set value joined ->
  preserve (plain_processor joined) t = Ok (chunks, marks) ->
  marks_setter joined = Parsed (plain_processor joined)
  /\ exists per_line,
       chunks = concat per_line
       /\ Forall2 (fun line cs =>
                     (exists n raw ms,
                         _preserve_line (plain_processor joined) line n
                         = Ok (raw, ms)
                         /\ cs = filter nonempty raw)
                     /\ line_chunks value line cs)
            (str2list t) per_line.
Proof.
  intros Hp Hj H. destruct (plain_setter Hp Hj) as [Hs Hinit].
  split; [exact Hs|]. apply Punctuation_init_shape in Hinit.
  unfold preserve in H.
  destruct (preserve_loop (plain_processor joined) 0 (str2list t))
    as [[cs ms]|] eqn:Hl; [|discriminate].
  cbn [bind] in H. injection H as <- <-.
  destruct (preserve_loop_per_line _ _ _ Hl) as (raws & -> & Hall).
  exists (map (filter nonempty) raws). split; [apply filter_concat|].
  clear Hl. induction Hall as [|line raw lines raws (k & ms1 & Hk) _ IH];
    cbn [map]; constructor; [|exact IH].
  split; [now exists k, raw, ms1|].
  destruct (preserve_line_cut (plain_processor joined) Hinit line k)
    as (t0 & gts & Sc & _ & Hcut).
  rewrite Hcut in Hk. injection Hk as Hk.
  assert (Hraw : raw = fst (line_result k t0 gts)) by now rewrite Hk.
  rewrite Hraw.
  apply (@line_chunks_cut (body (_marks_re (plain_processor joined)))
           value k line t0 gts); [|exact Sc].
  intros c. apply (plain_mark_free c Hj).
Qed.

Lemma chunks_postcondition_witness :
  marks_setter _DEFAULT_MARKS = Parsed (plain_processor _DEFAULT_MARKS)
  /\ exists per_line,
       [u " a"; u "b"; u "c "; u "d"] = concat per_line
       /\ Forall2 (fun line cs =>
                     (exists n raw ms,
                         _preserve_line (plain_processor _DEFAULT_MARKS) line n
                         = Ok (raw, ms)
                         /\ cs = filter nonempty raw)
                     /\ line_chunks default_marks line cs)
            (str2list (Lines [u " a, b!"; u "?"; u "... c "; u "d"])) per_line.
Proof.
  apply (@chunks_postcondition default_marks _DEFAULT_MARKS
           (Lines [u " a, b!"; u "?"; u "... c "; u "d"])
           [u " a"; u "b"; u "c "; u "d"]
           [{| index := 0; mark := u ", "; position := I |};
            {| index := 0; mark := u "!"; position := E |};
            {| index := 1; mark := u "?"; position := A |};
            {| index := 2; mark := u "... "; position := B |}]).
  - reflexivity.
  - exact default_join.
  - vm_compute. reflexivity.
Defined.

(** ** An empty line before a line with a mark *)

(** C9: the code does not restore what [preserve] returns when an empty
    line stands before a line with a mark.  With the default alphabet,
    whatever the order of the set, [preserve] of the empty line and the
    line a! gives no chunk and no mark for the empty line, and leaves the
    mark of the second line its line number 1 while its chunk is now the
    first; [restore] of that output raises [IndexError] where one line,
    a!, is expected.  With a third line b, [restore] returns two lines,
    the mark behind the wrong one. *)
Theorem empty_line_breaks_restore self :
  Punctuation_init default_marks self ->
  preserve self (Lines [u ""; u "a!"])
  = Ok ([u "a"], [{| index := 1; mark := u "!"; position := E |}])
  /\ restore (Lines [u "a"]) [{| index := 1; mark := u "!"; position := E |}]
     = Raise IndexError
  /\ preserve self (Lines [u ""; u "a!"; u "b"])
     = Ok ([u "a"; u "b"], [{| index := 1; mark := u "!"; position := E |}])
  /\ restore (Lines [u "a"; u "b"])
       [{| index := 1; mark := u "!"; position := E |}]
     = Ok [u "a"; u "b!"].
Proof.
  intros Hinit.
  pose proof (@plain_order_irrelevant default_marks default_marks self
                default_punctuation default_marks_plain
                (fun c => iff_refl _) Hinit default_punctuation_init) as Hsame.
  split; [rewrite (proj1 (Hsame _)); vm_compute; reflexivity|].
  split; [vm_compute; reflexivity|].
  split; [rewrite (proj1 (Hsame _)); vm_compute; reflexivity|].
  vm_compute; reflexivity.
Qed.

Lemma empty_line_breaks_restore_witness :
  preserve default_punctuation (Lines [u ""; u "a!"])
  = Ok ([u "a"], [{| index := 1; mark := u "!"; position := E |}])
  /\ restore (Lines [u "a"]) [{| index := 1; mark := u "!"; position := E |}]
     = Raise IndexError
  /\ preserve default_punctuation (Lines [u ""; u "a!"; u "b"])
     = Ok ([u "a"; u "b"], [{| index := 1; mark := u "!"; position := E |}])
  /\ restore (Lines [u "a"; u "b"])
       [{| index := 1; mark := u "!"; position := E |}]
     = Ok [u "a"; u "b!"].
Proof.
  apply (@empty_line_breaks_restore default_punctuation).
  exact default_punctuation_init.
Defined.

(** ** Further properties of such alphabets *)

(** X1: for every alphabet that is not empty and holds none of the
    characters backslash, closing bracket, caret and hyphen, whatever the
    order of the set, the processor is built and [preserve] never raises:
    no line makes [str.split] meet an empty separator. *)
Theorem preserve_never_raises value joined t :
  plain_alphabet value = true ->
  join_set value joined ->
  marks_setter joined = Parsed (plain_processor joined)
  /\ exists chunks marks,
       preserve (plain_processor joined) t = Ok (chunks, marks).
Proof.
  intros Hp Hj. destruct (plain_setter Hp Hj) as [Hs Hinit].
  split; [exact Hs|]. exact (@preserve_total value (plain_processor joined) t Hinit).
Qed.

Lemma preserve_never_raises_witness :
  marks_setter _DEFAULT_MARKS = Parsed (plain_processor _DEFAULT_MARKS)
  /\ exists chunks marks,
       preserve (plain_processor _DEFAULT_MARKS)
         (Lines [u "a, , b"; u ""; u "?!"])
       = Ok (chunks, marks).
Proof.
  apply (@preserve_never_raises default_marks _DEFAULT_MARKS).
  - reflexivity.
  - exact default_join.
Defined.

(** X5: for every alphabet that is not empty and holds none of the
    characters backslash, closing bracket, caret and hyphen, whatever the
    order of the set, the text of every mark [preserve] returns is not
    empty, is made of whitespace and characters of the alphabet only, and
    holds at least one character of the alphabet. *)
Theorem preserve_mark_texts value joined t chunks marks :
  plain_alphabet value = true ->
  join_set value joined ->
  preserve (plain_processor joined) t = Ok (chunks, marks) ->
  marks_setter joined = Parsed (plain_processor joined)
  /\ Forall (fun m =>
               mark m <> []
               /\ (forall c, In c (mark m) -> isspace c = true \/ In c value)
               /\ exists c, In c (mark m) /\ In c value)
       marks.
Proof.
  intros Hp Hj H. destruct (plain_setter Hp Hj) as [Hs Hinit].
  split; [exact Hs|].
  pose proof (@mark_texts_of_set value (plain_processor joined) t chunks marks
                Hinit H) as Ht.
  eapply Forall_impl; [|exact Ht]. cbv beta.
  intros m (Hne & Hall & (c & Hc & Hin)).
  split; [exact Hne|]. split.
  - intros d Hd. rewrite Forall_forall in Hall.
    apply Hall in Hd. apply orb_true_iff in Hd as [Hd|Hd]; [now left|].
    right. now apply (plain_marks d Hj).
  - exists c. split; [exact Hc|]. now apply (plain_marks c Hj).
Qed.

Lemma preserve_mark_texts_witness :
  marks_setter _DEFAULT_MARKS = Parsed (plain_processor _DEFAULT_MARKS)
  /\ Forall (fun m =>
               mark m <> []
               /\ (forall c, In c (mark m)
                             -> isspace c = true \/ In c default_marks)
               /\ exists c, In c (mark m) /\ In c default_marks)
       [{| index := 0; mark := u " , "; position := I |};
        {| index := 0; mark := u "?!"; position := E |}].
Proof.
  apply (@preserve_mark_texts default_marks _DEFAULT_MARKS
           (Str (u "so , what?!")) [u "so"; u "what"]).
  - reflexivity.
  - exact default_join.
  - vm_compute. reflexivity.
Defined.

(** X11: for every alphabet that is not empty and holds neither the space
    nor any of the characters backslash, closing bracket, caret and
    hyphen, whatever the order of the set, what [remove] returns holds no
    character of the alphabet, and it has no whitespace at its ends. *)
Theorem remove_leaves_no_mark value joined t :
  plain_alphabet value = true ->
  ~ In (chr " ") value ->
  join_set value joined ->
  marks_setter joined = Parsed (plain_processor joined)
  /\ Forall (fun line => without_marks value line /\ strip line = line)
       (str2list (remove (plain_processor joined) t)).
Proof.
  intros Hp Hsp Hj. destruct (plain_setter Hp Hj) as [Hs Hinit].
  split; [exact Hs|].
  assert (Hno : in_set (body (_marks_re (plain_processor joined))) (chr " ")
                = false).
  { destruct (in_set _ (chr " ")) eqn:E; [|reflexivity].
    exfalso. apply Hsp. now apply (plain_marks (chr " ") Hj). }
  pose proof (@remove_result_clean value (plain_processor joined) t Hinit Hno)
    as Hc.
  eapply Forall_impl; [|exact Hc]. cbv beta.
  intros line [Hfree Hstrip]. split; [|exact Hstrip].
  now apply (plain_mark_free line Hj).
Qed.

Lemma remove_leaves_no_mark_witness :
  marks_setter _DEFAULT_MARKS = Parsed (plain_processor _DEFAULT_MARKS)
  /\ Forall (fun line => without_marks default_marks line
                         /\ strip line = line)
       (str2list (remove (plain_processor _DEFAULT_MARKS)
                    (Lines [u " hello, my world! "; u "..."]))).
Proof.
  apply (@remove_leaves_no_mark default_marks _DEFAULT_MARKS).
  - reflexivity.
  - apply not_In_b. reflexivity.
  - exact default_join.
Defined.

(** X12: for every alphabet that is not empty and holds none of the
    characters backslash, closing bracket, caret and hyphen, whatever the
    order of the set, [remove] and [_preserve_line] cut a line at the same
    places: [remove] of a line is the chunks of the line, the empty ones
    too, joined by one space, without the whitespace at the ends. *)
Theorem remove_joins_chunks value joined line n chunks marks :
  plain_alphabet value = true ->
  join_set value joined ->
  _preserve_line (plain_processor joined) line n = Ok (chunks, marks) ->
  marks_setter joined = Parsed (plain_processor joined)
  /\ remove (plain_processor joined) (Str line)
     = Str (strip (str_join (u " ") chunks)).
Proof.
  intros Hp Hj H. destruct (plain_setter Hp Hj) as [Hs Hinit].
  split; [exact Hs|]. exact (@remove_is_joined_chunks value (plain_processor joined) line n
           chunks marks Hinit H).
Qed.

Lemma remove_joins_chunks_witness :
  marks_setter _DEFAULT_MARKS = Parsed (plain_processor _DEFAULT_MARKS)
  /\ remove (plain_processor _DEFAULT_MARKS) (Str (u "?so, , what"))
     = Str (strip (str_join (u " ") [u ""; u "so"; u ""; u "what"])).
Proof.
  apply (@remove_joins_chunks default_marks _DEFAULT_MARKS
           (u "?so, , what") 0 [u ""; u "so"; u ""; u "what"]
           [{| index := 0; mark := u "?"; position := B |};
            {| index := 0; mark := u ", "; position := I |};
            {| index := 0; mark := u ", "; position := I |}]).
  - reflexivity.
  - exact default_join.
  - vm_compute. reflexivity.
Defined.

(** X13: for every alphabet that is not empty and holds none of the
    characters backslash, closing bracket, caret and hyphen, whatever the
    order of the set, [remove] never makes a line longer. *)
Theorem remove_never_lengthens value joined line :
  plain_alphabet value = true ->
  join_set value joined ->
  marks_setter joined = Parsed (plain_processor joined)
  /\ length (remove_aux (plain_processor joined) line) <= length line.
Proof.
  intros Hp Hj. destruct (plain_setter Hp Hj) as [Hs Hinit].
  split; [exact Hs|]. exact (@remove_aux_length value (plain_processor joined) line Hinit).
Qed.

Lemma remove_never_lengthens_witness :
  marks_setter _DEFAULT_MARKS = Parsed (plain_processor _DEFAULT_MARKS)
  /\ length (remove_aux (plain_processor _DEFAULT_MARKS) (u "a,b ... c"))
     <= length (u "a,b ... c").
Proof.
  apply (@remove_never_lengthens default_marks _DEFAULT_MARKS).
  - reflexivity.
  - exact default_join.
Defined.

(** X14: for every alphabet that is not empty and holds none of the
    characters backslash, closing bracket, caret and hyphen, whatever the
    order of the set, a text without any character of the alphabet is only
    stripped by [remove]. *)
Theorem remove_without_marks value joined line :
  plain_alphabet value = true ->
  join_set value joined ->
  without_marks value line ->
  marks_setter joined = Parsed (plain_processor joined)
  /\ remove (plain_processor joined) (Str line) = Str (strip line).
Proof.
  intros Hp Hj Hfree. destruct (plain_setter Hp Hj) as [Hs Hinit].
  split; [exact Hs|].
  apply (@remove_mark_free value (plain_processor joined) line Hinit).
  now apply (plain_mark_free line Hj).
Qed.

Lemma remove_without_marks_witness :
  marks_setter _DEFAULT_MARKS = Parsed (plain_processor _DEFAULT_MARKS)
  /\ remove (plain_processor _DEFAULT_MARKS) (Str (u "  no mark here "))
     = Str (strip (u "  no mark here ")).
Proof.
  apply (@remove_without_marks default_marks _DEFAULT_MARKS).
  - reflexivity.
  - exact default_join.
  - apply without_marks_b. reflexivity.
Defined.

(** X15: from an alphabet that is not empty and holds none of the
    characters backslash, closing bracket, caret and hyphen, the setter
    builds the processor whatever the order in which the set of the
    characters is joined, and the mark set of the processor is the
    alphabet: a character is matched as a mark if and only if it is in the
    configured string. *)
Theorem plain_alphabet_compiles value joined :
  plain_alphabet value = true ->
  join_set value joined ->
  marks_setter joined = Parsed (plain_processor joined)
  /\ forall c,
       in_set (body (_marks_re (plain_processor joined))) c = true
       <-> In c value.
Proof.
  intros Hp Hj. split; [exact (proj1 (plain_setter Hp Hj))|].
  intros c. now apply plain_marks.
Qed.

Lemma plain_alphabet_compiles_witness :
  marks_setter (u ",.") = Parsed (plain_processor (u ",."))
  /\ forall c,
       in_set (body (_marks_re (plain_processor (u ",.")))) c = true
       <-> In c (u ".,.").
Proof.
  apply (@plain_alphabet_compiles (u ".,.") (u ",.")).
  - reflexivity.
  - unfold join_set. vm_compute nodup. apply Permutation_refl.
Defined.
